(** * pomodoro-tui: session engine, radio player, Spotify display, history

    A shallow embedding of the parts of the program that carry its
    behaviour: the [Pomodoro] session engine, [RadioPlayer] and
    [SpotifyDisplay] of [music.ts], and [HistoryManager] of [history.ts].
    JavaScript numbers that only ever hold integers are [Z]; nullable
    fields are [option]; calls that can throw return a [Res]. *)

From Stdlib Require Import ZArith Lia Bool List Ascii String.
From stdpp Require Import base decidable option list gmap strings pretty sorting.
Import ListNotations.
Local Open Scope Z_scope.

(** ** types.ts *)

Inductive SessionType := work | shortBreak | longBreak.

#[global] Instance SessionType_eq_dec : EqDecision SessionType.
Proof. solve_decision. Defined.

Record PomodoroConfig := mkConfig {
  workDuration : Z;
  shortBreakDuration : Z;
  longBreakDuration : Z;
  pomodorosBeforeLongBreak : Z
}.

Record PomodoroState := mkState {
  currentSession : SessionType;
  timeRemaining : Z;
  isRunning : bool;
  completedPomodoros : Z
}.

Definition DEFAULT_CONFIG : PomodoroConfig :=
  {| workDuration := 25;
     shortBreakDuration := 5;
     longBreakDuration := 15;
     pomodorosBeforeLongBreak := 4 |}.

(** The CLI accepts a configuration only when every field is at least 1
    ([parseConfig]: [isNaN(x) || x < 1] is a usage error). *)
Definition valid_config (c : PomodoroConfig) : Prop :=
  0 < workDuration c /\ 0 < shortBreakDuration c /\
  0 < longBreakDuration c /\ 0 < pomodorosBeforeLongBreak c.

(** [getSessionDuration(session, config)] of the TUI, in minutes. *)
Definition getSessionDuration (session : SessionType) (config : PomodoroConfig) : Z :=
  match session with
  | work => workDuration config
  | shortBreak => shortBreakDuration config
  | longBreak => longBreakDuration config
  end.

(** ** The session engine *)

Module Engine.

(** Modelled from the spec: the class [Pomodoro] (pomodoro.ts) is not among
    the sources; only its callers are.  The record holds the observable
    snapshot, the private cycle counter and whether the one-second tick
    subscription is live (section 4.1 and section 5). *)
Record Engine := mkEngine {
  config : PomodoroConfig;
  state : PomodoroState;
  completedWorkSessionsInCycle : Z;
  tickSubscription : bool
}.

(** Modelled from the spec: the two notification kinds of the engine,
    "state changed" with a snapshot and "session completed" with the type of
    the session that ended. *)
Inductive Notification :=
| StateChanged (snapshot : PomodoroState)
| SessionCompleted (ended : SessionType).

(** Modelled from the spec: a delivered notification together with what
    [getState()] returns while the subscriber's callback for it is running
    (the callbacks are called by the engine, in its own turn). *)
Record Emitted := mkEmitted {
  note : Notification;
  visible : PomodoroState
}.

(** Modelled from the spec: [getState()] returns a copy of the four
    observable fields. *)
Definition getState (e : Engine) : PomodoroState :=
  {| currentSession := currentSession (state e);
     timeRemaining := timeRemaining (state e);
     isRunning := isRunning (state e);
     completedPomodoros := completedPomodoros (state e) |}.

(** Modelled from the spec: the constructor.  Work session, full work
    duration in seconds, not running, nothing completed. *)
Definition init (cfg : PomodoroConfig) : Engine :=
  {| config := cfg;
     state := {| currentSession := work;
                 timeRemaining := workDuration cfg * 60;
                 isRunning := false;
                 completedPomodoros := 0 |};
     completedWorkSessionsInCycle := 0;
     tickSubscription := false |}.

(** Modelled from the spec: [start()].  No-op when running; otherwise the
    flag is set and the repeating one-second callback is scheduled. *)
Definition start (e : Engine) : Engine :=
  if isRunning (state e) then e
  else {| config := config e;
          state := {| currentSession := currentSession (state e);
                      timeRemaining := timeRemaining (state e);
                      isRunning := true;
                      completedPomodoros := completedPomodoros (state e) |};
          completedWorkSessionsInCycle := completedWorkSessionsInCycle e;
          tickSubscription := true |}.

(** Modelled from the spec: [pause()].  No-op when not running; otherwise
    the flag is cleared and the tick subscription cancelled. *)
Definition pause (e : Engine) : Engine :=
  if negb (isRunning (state e)) then e
  else {| config := config e;
          state := {| currentSession := currentSession (state e);
                      timeRemaining := timeRemaining (state e);
                      isRunning := false;
                      completedPomodoros := completedPomodoros (state e) |};
          completedWorkSessionsInCycle := completedWorkSessionsInCycle e;
          tickSubscription := false |}.

(** Modelled from the spec: [reset()].  Stops ticking and restores the full
    duration of the current session type. *)
Definition reset (e : Engine) : Engine :=
  {| config := config e;
     state := {| currentSession := currentSession (state e);
                 timeRemaining :=
                   getSessionDuration (currentSession (state e)) (config e) * 60;
                 isRunning := false;
                 completedPomodoros := completedPomodoros (state e) |};
     completedWorkSessionsInCycle := completedWorkSessionsInCycle e;
     tickSubscription := false |}.

(** Modelled from the spec: steps 2 and 3 of the transition, the session
    that follows [ended], the new completed count and the new cycle counter.
    The counter "has reached" the cycle length when it is not below it. *)
Definition nextSession (cfg : PomodoroConfig) (ended : SessionType)
    (completed cycle : Z) : SessionType * Z * Z :=
  match ended with
  | work =>
      let cycle' := cycle + 1 in
      if pomodorosBeforeLongBreak cfg <=? cycle'
      then (longBreak, completed + 1, 0)
      else (shortBreak, completed + 1, cycle')
  | shortBreak | longBreak => (work, completed, cycle)
  end.

(** Modelled from the spec: the transition of section 4.1.  The engine
    moves to the next session (steps 2 to 4) with the tick subscription
    cancelled (section 5), and two notifications go out, session-completed
    with the type of the session that ended (step 1) strictly before
    state-changed with the new snapshot (step 5).  Both callbacks find the
    engine in the new session: the engine "performs a transition and invokes
    a session-completed callback" (section 2), and the front ends read
    [getState()] inside that callback to learn about the next session (the
    blessed front end: "Update total seconds for next session"). *)
Definition transition (e : Engine) : Engine * list Emitted :=
  let ended := currentSession (state e) in
  let '(next, completed, cycle) :=
    nextSession (config e) ended (completedPomodoros (state e))
                (completedWorkSessionsInCycle e) in
  let e' := {| config := config e;
               state := {| currentSession := next;
                           timeRemaining := getSessionDuration next (config e) * 60;
                           isRunning := false;
                           completedPomodoros := completed |};
               completedWorkSessionsInCycle := cycle;
               tickSubscription := false |} in
  let first := {| note := SessionCompleted ended; visible := getState e' |} in
  let second := {| note := StateChanged (getState e'); visible := getState e' |} in
  (e', [first; second]).

(** Modelled from the spec: [skip()] performs the transition at once. *)
Definition skip (e : Engine) : Engine * list Emitted := transition e.

(** Modelled from the spec: the tick.  The remaining time drops by one;
    a positive result is announced, otherwise the session is over.  (The
    spec names the results "> 0" and "0"; a valid configuration never lets a
    reachable engine tick below zero, see [reachable_inv].) *)
Definition tick (e : Engine) : Engine * list Emitted :=
  let e1 := {| config := config e;
               state := {| currentSession := currentSession (state e);
                           timeRemaining := timeRemaining (state e) - 1;
                           isRunning := isRunning (state e);
                           completedPomodoros := completedPomodoros (state e) |};
               completedWorkSessionsInCycle := completedWorkSessionsInCycle e;
               tickSubscription := tickSubscription e |} in
  if 0 <? timeRemaining (state e1)
  then (e1, [ {| note := StateChanged (getState e1); visible := getState e1 |} ])
  else transition e1.

(** Modelled from the spec: the clock source.  One real second passes; the
    tick runs only if a subscription is live. *)
Definition elapse (e : Engine) : Engine * list Emitted :=
  if tickSubscription e then tick e else (e, []).

(** Everything that can happen to an engine: the four commands and the
    passing of one second of real time. *)
Inductive Command := Start | Pause | Reset | Skip | Elapse.

Definition exec (c : Command) (e : Engine) : Engine :=
  match c with
  | Start => start e
  | Pause => pause e
  | Reset => reset e
  | Skip => fst (skip e)
  | Elapse => fst (elapse e)
  end.

Definition run (cs : list Command) (e : Engine) : Engine :=
  fold_left (fun e c => exec c e) cs e.

Inductive reachable (cfg : PomodoroConfig) : Engine -> Prop :=
| reach_init : reachable cfg (init cfg)
| reach_step c e : reachable cfg e -> reachable cfg (exec c e).

(** [n] seconds of real time. *)
Fixpoint wait (n : nat) (e : Engine) : Engine :=
  match n with
  | O => e
  | S n' => wait n' (exec Elapse e)
  end.


(** The two ways a session ends: the user skips it, or it is started and
    left running until its last second has elapsed. *)
Inductive Completion := BySkip | ByTicks.

Definition complete (how : Completion) (e : Engine) : Engine :=
  match how with
  | BySkip => exec Skip e
  | ByTicks => wait (Z.to_nat (timeRemaining (state e))) (exec Start e)
  end.

Definition completeAll (hows : list Completion) (e : Engine) : Engine :=
  fold_left (fun e how => complete how e) hows e.

(** The session sequence of a cycle of length two. *)
Definition cycleOfTwo (k : nat) : SessionType :=
  match (k mod 4)%nat with
  | 0%nat => work
  | 1%nat => shortBreak
  | 2%nat => work
  | _ => longBreak
  end.

(** What holds of every engine the program can be in. *)
Record Good (cfg : PomodoroConfig) (e : Engine) : Prop := mkGood {
  good_config : config e = cfg;
  good_subscription : tickSubscription e = isRunning (state e);
  good_time : 0 < timeRemaining (state e);
  good_cycle : 0 <= completedWorkSessionsInCycle e < pomodorosBeforeLongBreak cfg;
  good_completed : 0 <= completedPomodoros (state e)
}.

End Engine.

(** ** music.ts: the radio player *)

(** The result of a call that may throw (for an [async] method: a promise
    that is fulfilled with a value or rejected). *)
Inductive Res (A : Type) : Type :=
| Ok (a : A)
| Throw.
Arguments Ok {A} a.
Arguments Throw {A}.

Module Radio.

Record LofiStation := mkStation {
  name : string;
  url : string
}.

Definition LOFI_STATIONS : list LofiStation :=
  [ {| name := "Lofi Girl"; url := "https://play.streamafrica.net/lofiradio" |};
    {| name := "ChillHop";
       url := "https://streams.fluxfm.de/Chillhop/mp3-128/streams.fluxfm.de/" |};
    {| name := "Box Lofi"; url := "https://stream.zeno.fm/f3wvbbqmdg8uv" |};
    {| name := "Lofi Cafe"; url := "https://stream.zeno.fm/0r0xa792kwzuv" |};
    {| name := "Study Beats"; url := "https://stream.zeno.fm/yn65fsaurfhvv" |} ].

(** [LOFI_STATIONS.length] *)
Definition totalStations : Z := Z.of_nat (length LOFI_STATIONS).

(** [LOFI_STATIONS[i]]: [undefined] outside the array. *)
Definition stationAt (i : Z) : option LofiStation :=
  if i <? 0 then None else LOFI_STATIONS !! Z.to_nat i.

(** A [Subprocess] handle, identified by the order in which it was spawned. *)
Definition Subprocess := nat.

Record RadioPlayer := mkPlayer {
  process : option Subprocess;
  currentStationIndex : Z;
  isPlaying : bool;
  playerCommand : option string
}.

(** What the player sees of the operating system: the player processes
    that are running (spawned and not yet ended), the live handles (the
    processes that were spawned and have not been sent a kill), how many
    processes were ever spawned, the largest number of live handles there
    were at once, and how many spawn and kill requests were made. *)
Record OS := mkOS {
  running : gset Subprocess;
  liveHandles : gset Subprocess;
  spawned : nat;
  peak : nat;
  requests : nat
}.

(** The behaviour of the machine the program runs on: the outcome of
    [which <player>] (an exit code, or a throw of [Bun.spawnSync]), and for
    the n-th request to the system whether a spawn or kill throws. *)
Record Env := mkEnv {
  which : string -> Res Z;
  spawn_throws : nat -> bool;
  kill_throws : nat -> bool
}.

Record World := mkWorld {
  player : RadioPlayer;
  os : OS
}.

(** Computations over the world that may throw. *)
Definition M (A : Type) : Type := World -> Res A * World.

Definition ret {A} (a : A) : M A := fun w => (Ok a, w).

Definition bind {A B} (m : M A) (k : A -> M B) : M B :=
  fun w => match m w with
           | (Ok a, w') => k a w'
           | (Throw, w') => (Throw, w')
           end.

Definition throw {A} : M A := fun w => (Throw, w).

(** [try { m } catch { h }] *)
Definition try_catch {A} (m h : M A) : M A :=
  fun w => match m w with
           | (Ok a, w') => (Ok a, w')
           | (Throw, w') => h w'
           end.

Notation "x <- m ;; k" := (bind m (fun x => k))
  (at level 100, m at next level, right associativity).
Notation "m ;;; k" := (bind m (fun _ => k))
  (at level 100, right associativity).

Definition this : M RadioPlayer := fun w => (Ok (player w), w).

Definition set_process (h : option Subprocess) : M unit :=
  fun w => (Ok tt, {| player := {| process := h;
                                   currentStationIndex := currentStationIndex (player w);
                                   isPlaying := isPlaying (player w);
                                   playerCommand := playerCommand (player w) |};
                      os := os w |}).

Definition set_isPlaying (b : bool) : M unit :=
  fun w => (Ok tt, {| player := {| process := process (player w);
                                   currentStationIndex := currentStationIndex (player w);
                                   isPlaying := b;
                                   playerCommand := playerCommand (player w) |};
                      os := os w |}).

Definition set_currentStationIndex (i : Z) : M unit :=
  fun w => (Ok tt, {| player := {| process := process (player w);
                                   currentStationIndex := i;
                                   isPlaying := isPlaying (player w);
                                   playerCommand := playerCommand (player w) |};
                      os := os w |}).

Section WithEnv.
Variable env : Env.

(** [Bun.spawn([cmd, ...args], ...)]: throws, or starts a new process and
    returns its handle without waiting for it. *)
Definition Bun_spawn (cmd : string) (args : list string) : M Subprocess :=
  fun w =>
    let o := os w in
    if spawn_throws env (requests o)
    then (Throw, {| player := player w;
                    os := {| running := running o; liveHandles := liveHandles o;
                             spawned := spawned o; peak := peak o;
                             requests := S (requests o) |} |})
    else
      let h := spawned o in
      let handles' : gset Subprocess := {[ h ]} ∪ liveHandles o in
      (Ok h, {| player := player w;
                os := {| running := {[ h ]} ∪ running o;
                         liveHandles := handles';
                         spawned := S h;
                         peak := Nat.max (peak o) (size handles');
                         requests := S (requests o) |} |}).

(** [subprocess.kill()]: throws, or sends the signal and returns.  The
    process is not waited for: it goes on running until it ends, which is
    an event of its own ([ProcessExits]). *)
Definition kill (h : Subprocess) : M unit :=
  fun w =>
    let o := os w in
    if kill_throws env (requests o)
    then (Throw, {| player := player w;
                    os := {| running := running o; liveHandles := liveHandles o;
                             spawned := spawned o; peak := peak o;
                             requests := S (requests o) |} |})
    else (Ok tt, {| player := player w;
                    os := {| running := running o;
                             liveHandles := liveHandles o ∖ {[ h ]};
                             spawned := spawned o; peak := peak o;
                             requests := S (requests o) |} |}).

(** [detectPlayer]: the first of mpv, ffplay, cvlc, mplayer for which
    [which] exits with 0; a throwing probe is skipped. *)
Fixpoint detectPlayer (players : list string) : option string :=
  match players with
  | [] => None
  | p :: rest =>
      match which env p with
      | Ok 0 => Some p
      | _ => detectPlayer rest
      end
  end.

Definition players : list string := ["mpv"; "ffplay"; "cvlc"; "mplayer"]%string.

(** [new RadioPlayer()] on a machine where no player process runs yet. *)
Definition construct : World :=
  {| player := {| process := None;
                  currentStationIndex := 0;
                  isPlaying := false;
                  playerCommand := detectPlayer players |};
     os := {| running := ∅; liveHandles := ∅; spawned := 0; peak := 0;
              requests := 0 |} |}.

Definition getPlayerArgs (cmd : string) (url : string) : list string :=
  if decide (cmd = "mpv") then ["--no-video"; "--really-quiet"; url]
  else if decide (cmd = "ffplay") then ["-nodisp"; "-autoexit"; "-loglevel"; "quiet"; url]
  else if decide (cmd = "cvlc") then ["--intf"; "dummy"; "--quiet"; url]
  else if decide (cmd = "mplayer") then ["-really-quiet"; "-noconsolecontrols"; url]
  else [url].

Definition play : M bool :=
  p <- this ;;
  match playerCommand p with
  | None => ret false
  | Some cmd =>
      if isPlaying p then ret true
      else
        let station := stationAt (currentStationIndex p) in
        try_catch
          (match station with
           | None => throw   (* station.url of undefined *)
           | Some st =>
               let args := getPlayerArgs cmd (url st) in
               h <- Bun_spawn cmd args ;;
               set_process (Some h) ;;;
               set_isPlaying true ;;;
               ret true
           end)
          (ret false)
  end.

Definition stop : M unit :=
  p <- this ;;
  match process p with
  | Some h => kill h ;;; set_process None
  | None => ret tt
  end ;;;
  set_isPlaying false.

Definition pause : M unit := stop.

Definition resume : M bool := play.

Definition toggle : M bool :=
  p <- this ;;
  if isPlaying p then stop ;;; ret false
  else play.

Definition nextStation : M unit :=
  p <- this ;;
  let wasPlaying := isPlaying p in
  stop ;;;
  p' <- this ;;
  set_currentStationIndex (Z.rem (currentStationIndex p' + 1) totalStations) ;;;
  if wasPlaying then play ;;; ret tt else ret tt.

Definition previousStation : M unit :=
  p <- this ;;
  let wasPlaying := isPlaying p in
  stop ;;;
  p' <- this ;;
  set_currentStationIndex
    (Z.rem (currentStationIndex p' - 1 + totalStations) totalStations) ;;;
  if wasPlaying then play ;;; ret tt else ret tt.

Definition setStation (index : Z) : M unit :=
  if (0 <=? index) && (index <? totalStations) then
    p <- this ;;
    let wasPlaying := isPlaying p in
    stop ;;;
    set_currentStationIndex index ;;;
    if wasPlaying then play ;;; ret tt else ret tt
  else ret tt.

(** [MusicManager.cleanup()] as far as the radio goes: [this.radio.stop()]. *)
Definition cleanup : M unit := stop.

(** The operations of the player, and a player process ending (by itself,
    or some time after it was sent a kill).  [OpSetStation] is [setStation]
    called with an integer; a call with a number that is not an integer is
    not among these operations. *)
Inductive Op :=
| OpPlay | OpStop | OpPause | OpResume | OpToggle
| OpNextStation | OpPreviousStation | OpSetStation (index : Z) | OpCleanup
| ProcessExits (h : Subprocess).

Definition discard {A} (m : M A) : M unit := m ;;; ret tt.

Definition call (op : Op) : M unit :=
  match op with
  | OpPlay => discard play
  | OpStop => stop
  | OpPause => pause
  | OpResume => discard resume
  | OpToggle => discard toggle
  | OpNextStation => nextStation
  | OpPreviousStation => previousStation
  | OpSetStation i => setStation i
  | OpCleanup => cleanup
  | ProcessExits h =>
      fun w => (Ok tt, {| player := player w;
                          os := {| running := running (os w) ∖ {[ h ]};
                                   liveHandles := liveHandles (os w);
                                   spawned := spawned (os w);
                                   peak := peak (os w);
                                   requests := requests (os w) |} |})
  end.

(** A sequence of operations; one that throws leaves the world as it was
    when the exception left the method, and the next one goes on from there. *)
Definition run (ops : list Op) (w : World) : World :=
  fold_left (fun w op => snd (call op w)) ops w.

(** [m] called [n] times in a row. *)
Fixpoint times (n : nat) (m : M unit) : M unit :=
  match n with
  | O => ret tt
  | S n' => m ;;; times n' m
  end.

End WithEnv.

(** The state the controller keeps consistent: the flag and the handle go
    together, the handle held is a live one and the only one, and there
    never were two live handles at once. *)
Record Inv (w : World) : Prop := mkInv {
  inv_flag : isPlaying (player w) = false -> process (player w) = None;
  inv_handle : process (player w) = None -> isPlaying (player w) = false;
  inv_live : forall h, h ∈ liveHandles (os w) -> process (player w) = Some h;
  inv_held : forall h, process (player w) = Some h -> h ∈ liveHandles (os w);
  inv_peak : (peak (os w) <= 1)%nat
}.

End Radio.

(** ** music.ts: the Spotify now-playing display *)

Module Spotify.

Record SpotifyTrack := mkTrack {
  name : string;
  artist : string;
  album : string;
  isPlaying : bool
}.

(** [pollInterval] holds the identifier of the interval timer, if one is set. *)
Record SpotifyDisplay := mkDisplay {
  accessToken : option string;
  currentTrack : option SpotifyTrack;
  pollInterval : option nat
}.

(** The second argument of [fetch]: the headers, and the abort signal with
    its delay in milliseconds when the caller passes one. *)
Record Request := mkRequest {
  req_url : string;
  req_headers : list (string * string);
  req_signal : option Z
}.

(** What [await response.json()] and the reads of [data] find. *)
Inductive Payload :=
| NotJson                      (* response.json() rejects *)
| Falsy                        (* data is null or another falsy value *)
| NoItem                       (* data.item is missing or falsy *)
| BadItem                      (* data.item lacks artists or album: the read throws *)
| Item (item_name : string) (artists : list string) (album_name : string)
       (is_playing : bool).

Record Response := mkResponse {
  status : Z;
  payload : Payload
}.

(** [response.ok] *)
Definition ok (r : Response) : bool := (200 <=? status r) && (status r <=? 299).

(** What the network does with one request. *)
Inductive Exchange :=
| Responds (r : Response)
| Fails                        (* connection error: fetch rejects *)
| Stalls.                      (* no answer ever arrives *)

(** A promise that has settled with a result, or never does. *)
Inductive Promise (A : Type) : Type :=
| Pending
| Settled (a : A).
Arguments Pending {A}.
Arguments Settled {A} a.

(** [fetch(url, init)].  A request whose answer never arrives is rejected
    when its abort signal fires; without a signal nothing settles it. *)
Definition fetch (req : Request) (x : Exchange) : Promise (Res Response) :=
  match x with
  | Responds r => Settled (Ok r)
  | Fails => Settled Throw
  | Stalls =>
      match req_signal req with
      | Some _ => Settled Throw
      | None => Pending
      end
  end.

(** The request [getCurrentTrack] sends: the URL and one header. *)
Definition currentlyPlaying (token : string) : Request :=
  {| req_url := "https://api.spotify.com/v1/me/player/currently-playing";
     req_headers := [("Authorization", "Bearer " +:+ token)%string];
     req_signal := None |}.

(** [new SpotifyDisplay(accessToken?)]: an empty token counts as absent. *)
Definition construct (token : option string) : SpotifyDisplay :=
  {| accessToken := match token with
                    | Some t => if decide (t = EmptyString) then None else Some t
                    | None => None
                    end;
     currentTrack := None;
     pollInterval := None |}.

Definition setAccessToken (token : string) (d : SpotifyDisplay) : SpotifyDisplay :=
  {| accessToken := Some token;
     currentTrack := currentTrack d;
     pollInterval := pollInterval d |}.

(** [getCurrentTrack()]: the value the promise is fulfilled with and the
    display afterwards, or [Pending] when the promise never settles. *)
Definition getCurrentTrack (x : Exchange) (d : SpotifyDisplay)
    : Promise (option SpotifyTrack * SpotifyDisplay) :=
  match accessToken d with
  | None => Settled (None, d)
  | Some token =>
      if decide (token = EmptyString) then Settled (None, d)
      else
        match fetch (currentlyPlaying token) x with
        | Pending => Pending
        | Settled Throw => Settled (None, d)
        | Settled (Ok response) =>
            if (status response =? 204) || (status response =? 401)
            then Settled (None, d)
            else if negb (ok response) then Settled (None, d)
            else
              match payload response with
              | NotJson => Settled (None, d)
              | Falsy => Settled (None, d)
              | NoItem => Settled (None, d)
              | BadItem => Settled (None, d)
              | Item n artists a p =>
                  let track := {| name := n;
                                  artist := String.concat ", " artists;
                                  album := a;
                                  isPlaying := p |} in
                  Settled (Some track,
                           {| accessToken := accessToken d;
                              currentTrack := Some track;
                              pollInterval := pollInterval d |})
              end
        end
  end.

Definition stopPolling (d : SpotifyDisplay) : SpotifyDisplay :=
  {| accessToken := accessToken d;
     currentTrack := currentTrack d;
     pollInterval := None |}.

(** One poll of [startPolling] (the initial fetch or an interval firing):
    the callback runs once the promise of [getCurrentTrack] has settled. *)
Definition poll {A} (callback : option SpotifyTrack -> A -> A)
    (x : Exchange) (da : SpotifyDisplay * A) : SpotifyDisplay * A :=
  match getCurrentTrack x (fst da) with
  | Pending => da
  | Settled (track, d') => (d', callback track (snd da))
  end.

(** The polls of [startPolling] are started one after the other, the
    initial fetch first and then one at each firing of the timer, none
    waiting for the one before it: [fired] lists what the network does
    with the request of each, in the order in which they are started, and
    [arrival] lists the polls, by their position in [fired], in the order
    in which their answers arrive, which need not be the order in which
    they were started; a poll that is not listed has not been answered.
    [settling] is the list of the exchanges in the order of arrival. *)
Definition settling (fired : list Exchange) (arrival : list nat) : list Exchange :=
  omap (fun i => fired !! i) arrival.

(** [startPolling(callback)]: any earlier timer is cleared and a new one is
    set; each poll, when its answer arrives, stores its track and has the
    callback run (the stores happen in the order of arrival, and so do the
    callbacks). *)
Definition startPolling {A} (callback : option SpotifyTrack -> A -> A)
    (timer : nat) (fired : list Exchange) (arrival : list nat)
    (da : SpotifyDisplay * A) : SpotifyDisplay * A :=
  let d0 := stopPolling (fst da) in
  let d1 := {| accessToken := accessToken d0;
               currentTrack := currentTrack d0;
               pollInterval := Some timer |} in
  fold_left (fun da x => poll callback x da) (settling fired arrival) (d1, snd da).

Definition getCachedTrack (d : SpotifyDisplay) : option SpotifyTrack := currentTrack d.

End Spotify.

(** ** history.ts *)

Module History.

(** Modelled from the spec: the interface [PomodoroHistoryEntry] of
    types.ts is not among the sources; section 6 of the spec lists its
    fields, and [addEntry] fills them. *)
Record PomodoroHistoryEntry := mkEntry {
  id : string;
  sessionType : SessionType;
  duration : Z;
  completedAt : string;
  date : string;
  pomodoroNumber : Z
}.

(** Modelled from the spec: the interface [PomodoroHistory] of types.ts,
    the list of entries with [totalPomodoros] and [lastUpdated]. *)
Record PomodoroHistory := mkHistory {
  entries : list PomodoroHistoryEntry;
  totalPomodoros : Z;
  lastUpdated : string
}.

Record HistoryManager := mkManager {
  filePath : string;
  history : PomodoroHistory
}.

(** The manager and the document its file holds, if it was ever written. *)
Record World := mkWorld {
  manager : HistoryManager;
  stored : option PomodoroHistory
}.

(** What the surroundings answer during one call of [addEntry], in the
    order the calls are made: [new Date()] in [addEntry], [Date.now()] and
    the random suffix in [generateId], [new Date()] in
    [getPomodoroNumberForToday], and whether writing the file throws.
    Times are milliseconds since the epoch. *)
Record Env := mkEnv {
  clock_now : Z;
  clock_id : Z;
  random_suffix : string;
  clock_today : Z;
  write_throws : bool
}.

(** The last [k] decimal digits of [n], most significant first. *)
Fixpoint pad (k : nat) (n : Z) : string :=
  match k with
  | O => EmptyString
  | S k' => pad k' (n / 10) +:+ String (Ascii.ascii_of_nat (48 + Z.to_nat (n mod 10))) EmptyString
  end.

(** Year, month and day of the [days]-th day since 1970-01-01 in the
    proleptic Gregorian calendar. *)
Definition civil (days : Z) : Z * Z * Z :=
  let z := days + 719468 in
  let era := z / 146097 in
  let doe := z - era * 146097 in
  let yoe := (doe - doe / 1460 + doe / 36524 - doe / 146096) / 365 in
  let doy := doe - (365 * yoe + yoe / 4 - yoe / 100) in
  let mp := (5 * doy + 2) / 153 in
  let d := doy - (153 * mp + 2) / 5 + 1 in
  let m := if mp <? 10 then mp + 3 else mp - 9 in
  let y := yoe + era * 400 + (if m <=? 2 then 1 else 0) in
  (y, m, d).

(** [date.toISOString()] for the date [ms] milliseconds after the epoch. *)
Definition toISOString (ms : Z) : string :=
  let '(y, m, d) := civil (ms / 86400000) in
  let t := ms mod 86400000 in
  let year := if (0 <=? y) && (y <=? 9999) then pad 4 y
              else if y <? 0 then "-" +:+ pad 6 (- y)
              else "+" +:+ pad 6 y in
  year +:+ "-" +:+ pad 2 m +:+ "-" +:+ pad 2 d +:+ "T" +:+
  pad 2 (t / 3600000) +:+ ":" +:+ pad 2 (t / 60000 mod 60) +:+ ":" +:+
  pad 2 (t / 1000 mod 60) +:+ "." +:+ pad 3 (t mod 1000) +:+ "Z".

(** [s.split('T')[0]] *)
Fixpoint beforeT (s : string) : string :=
  match s with
  | EmptyString => EmptyString
  | String c rest => if Ascii.eqb c "T"%char then EmptyString else String c (beforeT rest)
  end.

Definition getDateString (ms : Z) : string := beforeT (toISOString ms).

Definition createEmpty (now : Z) : PomodoroHistory :=
  {| entries := []; totalPomodoros := 0; lastUpdated := toISOString now |}.

Section WithEnv.
Variable env : Env.

Definition generateId : string :=
  pretty (clock_id env) +:+ "-" +:+ random_suffix env.

Definition getPomodoroNumberForToday (h : PomodoroHistory) : Z :=
  let today := getDateString (clock_today env) in
  let todayEntries :=
    filter (fun e => date e = today /\ sessionType e = work) (entries h) in
  Z.of_nat (length todayEntries) + 1.

(** [save()]: the document is written unless [Bun.write] throws. *)
Definition save (w : World) : Res unit * World :=
  if write_throws env then (Throw, w)
  else (Ok tt, {| manager := manager w; stored := Some (history (manager w)) |}).

Definition addEntry (session : SessionType) (minutes : Z) (w : World)
    : Res PomodoroHistoryEntry * World :=
  let now := clock_now env in
  let h := history (manager w) in
  let entry := {| id := generateId;
                  sessionType := session;
                  duration := minutes;
                  completedAt := toISOString now;
                  date := getDateString now;
                  pomodoroNumber :=
                    if decide (session = work) then getPomodoroNumberForToday h else 0 |} in
  let h1 := {| entries := entries h ++ [entry];
               totalPomodoros := if decide (session = work)
                                 then totalPomodoros h + 1 else totalPomodoros h;
               lastUpdated := toISOString now |} in
  let w1 := {| manager := {| filePath := filePath (manager w); history := h1 |};
               stored := stored w |} in
  match save w1 with
  | (Ok _, w2) => (Ok entry, w2)
  | (Throw, w2) => (Throw, w2)
  end.

Definition getTodayStats (today_ms : Z) (h : PomodoroHistory) : Z * Z :=
  let today := getDateString today_ms in
  let todayEntries :=
    filter (fun e => date e = today /\ sessionType e = work) (entries h) in
  (Z.of_nat (length todayEntries),
   fold_left (fun sum e => sum + duration e) todayEntries 0).

End WithEnv.

(** The position, counted from 1, of the [i]-th entry of [es] among the
    work entries of [es] that carry the same [date]: the number of such
    entries up to and including it. *)
Definition dayOrdinal (es : list PomodoroHistoryEntry) (i : nat) : option Z :=
  match es !! i with
  | None => None
  | Some e =>
      Some (Z.of_nat (length (filter (fun e' => date e' = date e /\ sessionType e' = work)
                                     (take (S i) es))))
  end.

End History.

(** ** music.ts: what the radio player reports *)

Module RadioStatus.

Record MusicStatus := mkStatus {
  isPlaying : bool;
  stationName : string;
  stationIndex : Z;
  totalStations : Z
}.

(** [getStatus()]: reading [station.name] throws when the index selects no
    station. *)
Definition getStatus : Radio.M MusicStatus :=
  fun w =>
    match Radio.stationAt (Radio.currentStationIndex (Radio.player w)) with
    | None => (Throw, w)
    | Some station =>
        (Ok {| isPlaying := Radio.isPlaying (Radio.player w);
               stationName := Radio.name station;
               stationIndex := Radio.currentStationIndex (Radio.player w);
               totalStations := Radio.totalStations |}, w)
    end.

(** [getCurrentStation()]: [None] stands for [undefined]. *)
Definition getCurrentStation (w : Radio.World) : option Radio.LofiStation :=
  Radio.stationAt (Radio.currentStationIndex (Radio.player w)).

Definition getStations : list Radio.LofiStation := Radio.LOFI_STATIONS.

Definition getAvailablePlayer (w : Radio.World) : option string :=
  Radio.playerCommand (Radio.player w).

(** What every player reached from the constructor satisfies besides
    [Radio.Inv]: the index selects a station, and a player that is playing
    has a command to play with. *)
Record Ready (w : Radio.World) : Prop := mkReady {
  ready_index :
    0 <= Radio.currentStationIndex (Radio.player w) < Radio.totalStations;
  ready_command :
    Radio.isPlaying (Radio.player w) = true ->
    Radio.playerCommand (Radio.player w) <> None
}.

End RadioStatus.

(** ** music.ts: the music manager *)

Module Manager.

Inductive MusicMode := radio | spotify | off.

#[global] Instance MusicMode_eq_dec : EqDecision MusicMode.
Proof. solve_decision. Defined.

(** [onStatusChange] records whether a status callback is registered and
    [statuses] what it has been called with, oldest first. *)
Record MusicManager := mkManager {
  mode : MusicMode;
  radioWorld : Radio.World;
  display : Spotify.SpotifyDisplay;
  onStatusChange : bool;
  statuses : list string
}.

(** The callback the constructor hands to [startPolling]: the status
    callback is called with "name - artist" when one is registered and the
    poll returned a track. *)
Definition statusCallback (track : option Spotify.SpotifyTrack)
    (a : bool * list string) : bool * list string :=
  match track with
  | Some t =>
      if fst a
      then (fst a, snd a ++ [Spotify.name t +:+ " - " +:+ Spotify.artist t])
      else a
  | None => a
  end.

Definition setOnStatusChange (m : MusicManager) : MusicManager :=
  {| mode := mode m; radioWorld := radioWorld m; display := display m;
     onStatusChange := true; statuses := statuses m |}.

Definition getMode (m : MusicManager) : MusicMode := mode m.

(** Running a method of [this.radio]. *)
Definition onRadio {A} (f : Radio.M A) (m : MusicManager) : Res A * MusicManager :=
  let '(r, w) := f (radioWorld m) in
  (r, {| mode := mode m; radioWorld := w; display := display m;
         onStatusChange := onStatusChange m; statuses := statuses m |}).

Section WithEnv.
Variable env : Radio.Env.

(** [new MusicManager(mode, spotifyToken)]; [timer] is what [setInterval]
    returns if polling is started.  The radio player is constructed, and
    the players probed, in every mode. *)
Definition construct (mode0 : MusicMode) (spotifyToken : option string) (timer : nat)
    : MusicManager :=
  let d := Spotify.construct spotifyToken in
  let polling := match mode0, spotifyToken with
                 | spotify, Some t => if decide (t = EmptyString) then false else true
                 | _, _ => false
                 end in
  {| mode := mode0;
     radioWorld := Radio.construct env;
     display := if polling
                then fst (Spotify.startPolling statusCallback timer [] [] (d, (false, [])))
                else d;
     onStatusChange := false;
     statuses := [] |}.

Definition play (m : MusicManager) : Res bool * MusicManager :=
  match mode m with
  | off => (Ok false, m)
  | radio => onRadio (Radio.play env) m
  | spotify => (Ok false, m)
  end.

Definition stop (m : MusicManager) : Res unit * MusicManager :=
  match mode m with
  | radio => onRadio (Radio.stop env) m
  | _ => (Ok tt, m)
  end.

Definition pause (m : MusicManager) : Res unit * MusicManager := stop m.

Definition resume (m : MusicManager) : Res bool * MusicManager := play m.

Definition toggle (m : MusicManager) : Res bool * MusicManager :=
  match mode m with
  | radio => onRadio (Radio.toggle env) m
  | _ => (Ok false, m)
  end.

Definition nextStation (m : MusicManager) : Res unit * MusicManager :=
  match mode m with
  | radio => onRadio (Radio.nextStation env) m
  | _ => (Ok tt, m)
  end.

(** [cleanup()]: the radio is stopped in every mode; if that throws, the
    polling is not stopped. *)
Definition cleanup (m : MusicManager) : Res unit * MusicManager :=
  match onRadio (Radio.stop env) m with
  | (Ok _, m1) =>
      (Ok tt, {| mode := mode m1; radioWorld := radioWorld m1;
                 display := Spotify.stopPolling (display m1);
                 onStatusChange := onStatusChange m1; statuses := statuses m1 |})
  | (Throw, m1) => (Throw, m1)
  end.

Inductive Op :=
| OpPlay | OpStop | OpPause | OpResume | OpToggle | OpNextStation | OpCleanup
| OpSetOnStatusChange.

Definition forget {A} (r : Res A * MusicManager) : Res unit * MusicManager :=
  match r with
  | (Ok _, m) => (Ok tt, m)
  | (Throw, m) => (Throw, m)
  end.

Definition call (op : Op) (m : MusicManager) : Res unit * MusicManager :=
  match op with
  | OpPlay => forget (play m)
  | OpStop => stop m
  | OpPause => pause m
  | OpResume => forget (resume m)
  | OpToggle => forget (toggle m)
  | OpNextStation => nextStation m
  | OpCleanup => cleanup m
  | OpSetOnStatusChange => (Ok tt, setOnStatusChange m)
  end.

Definition run (ops : list Op) (m : MusicManager) : MusicManager :=
  fold_left (fun m op => snd (call op m)) ops m.

End WithEnv.

(** [getStatusText()]; a string is taken as its sequence of code units, so
    that [length] and [substring] count the way the program does. *)
Definition getStatusText (m : MusicManager) : Res string :=
  match mode m with
  | off => Ok "Music: Off"%string
  | spotify =>
      match Spotify.getCachedTrack (display m) with
      | Some track =>
          if Spotify.isPlaying track then
            let name := if (20 <? String.length (Spotify.name track))%nat
                        then substring 0 17 (Spotify.name track) +:+ "..."
                        else Spotify.name track in
            let artist := if (15 <? String.length (Spotify.artist track))%nat
                          then substring 0 12 (Spotify.artist track) +:+ "..."
                          else Spotify.artist track in
            Ok ("♪ " +:+ name +:+ " - " +:+ artist)%string
          else Ok "♪ Spotify: Not playing"%string
      | None => Ok "♪ Spotify: Not playing"%string
      end
  | radio =>
      match RadioStatus.getStatus (radioWorld m) with
      | (Ok status, _) =>
          let icon := "♪"%string in
          let state := if RadioStatus.isPlaying status then EmptyString
                       else " (paused)"%string in
          Ok (icon +:+ " " +:+ RadioStatus.stationName status +:+ state)%string
      | (Throw, _) => Throw
      end
  end.

Definition isPlaying (m : MusicManager) : Res bool :=
  match mode m with
  | radio =>
      match RadioStatus.getStatus (radioWorld m) with
      | (Ok status, _) => Ok (RadioStatus.isPlaying status)
      | (Throw, _) => Throw
      end
  | spotify =>
      match Spotify.getCachedTrack (display m) with
      | Some track => Ok (Spotify.isPlaying track)
      | None => Ok false
      end
  | off => Ok false
  end.

Definition hasPlayer (m : MusicManager) : bool :=
  match mode m with
  | radio =>
      match RadioStatus.getAvailablePlayer (radioWorld m) with
      | Some _ => true
      | None => false
      end
  | _ => true
  end.

End Manager.

(** ** music.ts: polls and timers of the Spotify display *)

Module SpotifyPolling.

(** The track a poll returns, if it returns one: what [getCurrentTrack()]
    resolves with on a display that holds [token] when the exchange goes as
    [x]. *)
Definition returned (token : option string) (x : Spotify.Exchange)
    : option Spotify.SpotifyTrack :=
  match Spotify.getCurrentTrack x
          {| Spotify.accessToken := token;
             Spotify.currentTrack := None;
             Spotify.pollInterval := None |} with
  | Spotify.Settled (Some t, _) => Some t
  | _ => None
  end.

(** A display together with the interval timers that are set: [setInterval]
    hands out a new identifier each time, [clearInterval] removes one. *)
Record Timed := mkTimed {
  shown : Spotify.SpotifyDisplay;
  liveTimers : gset nat;
  timersSet : nat
}.

Definition constructTimed (token : option string) : Timed :=
  {| shown := Spotify.construct token; liveTimers := ∅; timersSet := 0 |}.

(** [stopPolling()]: the timer is cleared only if one is recorded. *)
Definition stopPolling (t : Timed) : Timed :=
  match Spotify.pollInterval (shown t) with
  | Some id =>
      {| shown := Spotify.stopPolling (shown t);
         liveTimers := liveTimers t ∖ {[ id ]};
         timersSet := timersSet t |}
  | None => t
  end.

(** [startPolling(callback)]: [stopPolling()], then [setInterval]. *)
Definition startPolling (t : Timed) : Timed :=
  let t0 := stopPolling t in
  let id := timersSet t0 in
  {| shown := fst (Spotify.startPolling (fun _ (a : unit) => a) id [] [] (shown t0, tt));
     liveTimers := {[ id ]} ∪ liveTimers t0;
     timersSet := S id |}.

Inductive TimerOp := Start | Stop.

Definition runTimers (ops : list TimerOp) (t : Timed) : Timed :=
  fold_left (fun t op => match op with
                         | Start => startPolling t
                         | Stop => stopPolling t
                         end) ops t.

End SpotifyPolling.

(** ** history.ts: loading, and calls in a row *)

Module HistoryRuns.

(** What is found at [filePath] when the manager is constructed. *)
Inductive FileState :=
| Missing                                    (* existsSync is false *)
| EmptyFile                                  (* size 0 *)
| Unreadable                                 (* require throws *)
| Document (h : History.PomodoroHistory).

(** [load()]; [now] is the clock read of [createEmpty()]. *)
Definition load (f : FileState) (now : Z) : History.PomodoroHistory :=
  match f with
  | Missing => History.createEmpty now
  | EmptyFile => History.createEmpty now
  | Unreadable => History.createEmpty now
  | Document h => h
  end.

(** [join(homedir(), '.pomodoro', 'history.json')] on a POSIX system. *)
Definition DEFAULT_HISTORY_PATH (home : string) : string :=
  (home +:+ "/.pomodoro/history.json")%string.

(** [new HistoryManager(filePath?)]: an absent or empty path means the
    default one. *)
Definition construct (home : string) (filePath : option string) (f : FileState) (now : Z)
    : History.World :=
  {| History.manager :=
       {| History.filePath :=
            match filePath with
            | Some path => if decide (path = EmptyString)
                           then DEFAULT_HISTORY_PATH home else path
            | None => DEFAULT_HISTORY_PATH home
            end;
          History.history := load f now |};
     History.stored := match f with
                       | Document h => Some h
                       | _ => None
                       end |}.

(** One call of [addEntry] with what the surroundings answer during it. *)
Record Call := mkCall {
  call_env : History.Env;
  call_session : SessionType;
  call_minutes : Z
}.

Definition addEntries (calls : list Call) (w : History.World) : History.World :=
  fold_left (fun w c => snd (History.addEntry (call_env c) (call_session c)
                                              (call_minutes c) w))
            calls w.

(** The number of work entries. *)
Definition workCount (es : list History.PomodoroHistoryEntry) : Z :=
  Z.of_nat (length (filter (fun e => History.sessionType e = work) es)).

End HistoryRuns.

(** ** tasks/manager.ts and components/TaskList.tsx *)

Module Tasks.

(** The interface [Task] of tasks/types.ts is not among the sources; these
    are the fields [add] fills. *)
Record Task := mkTask {
  id : string;
  text : string;
  completed : bool;
  createdAt : Z
}.

Record TaskManager := mkManager {
  tasks : list Task;
  filePath : string
}.

(** The manager and the task list its file holds, if it was ever written. *)
Record World := mkWorld {
  manager : TaskManager;
  stored : option (list Task)
}.

(** What the surroundings answer during one call: [Date.now()] and the
    random suffix in [generateId], [Date.now()] for [createdAt], and whether
    the write of [save()] throws. *)
Record Env := mkEnv {
  clock_id : Z;
  random_suffix : string;
  clock_created : Z;
  write_throws : bool
}.

(** [array.sort(compare)]: the sort is stable, an element goes before the
    first one it does not compare greater than.  For a comparator that
    orders by a key, as the two used here do, this is the one stable sorted
    arrangement. *)
Fixpoint insert {A} (compare : A -> A -> Z) (x : A) (l : list A) : list A :=
  match l with
  | [] => [x]
  | y :: l' => if compare x y <=? 0 then x :: y :: l' else y :: insert compare x l'
  end.

Fixpoint sort {A} (compare : A -> A -> Z) (l : list A) : list A :=
  match l with
  | [] => []
  | x :: l' => insert compare x (sort compare l')
  end.

(** [task.completed = !task.completed] *)
Definition flipped (t : Task) : Task :=
  {| id := id t; text := text t; completed := negb (completed t);
     createdAt := createdAt t |}.

(** [tasks.find(t => t.id === id)] followed by the flip of [completed] on
    the task found: [None] when no task has the id. *)
Fixpoint toggleFirst (target : string) (l : list Task) : option (list Task) :=
  match l with
  | [] => None
  | t :: rest =>
      if decide (id t = target)
      then Some (flipped t :: rest)
      else match toggleFirst target rest with
           | Some rest' => Some (t :: rest')
           | None => None
           end
  end.

Section WithEnv.
Variable env : Env.
(** [String.prototype.trim] *)
Variable trim : string -> string.

(** [save()], which the callers do not await: the list is written unless
    the write throws. *)
Definition save (w : World) : World :=
  if write_throws env then w
  else {| manager := manager w; stored := Some (tasks (manager w)) |}.

Definition generateId : string :=
  (pretty (clock_id env) +:+ "-" +:+ random_suffix env)%string.

Definition add (input : string) (w : World) : Task * World :=
  let task := {| id := generateId;
                 text := trim input;
                 completed := false;
                 createdAt := clock_created env |} in
  let w1 := {| manager := {| tasks := tasks (manager w) ++ [task];
                             filePath := filePath (manager w) |};
               stored := stored w |} in
  (task, save w1).

Definition toggle (target : string) (w : World) : World :=
  match toggleFirst target (tasks (manager w)) with
  | Some l => save {| manager := {| tasks := l; filePath := filePath (manager w) |};
                      stored := stored w |}
  | None => w
  end.

Definition delete (target : string) (w : World) : World :=
  save {| manager := {| tasks := filter (fun t => id t <> target) (tasks (manager w));
                        filePath := filePath (manager w) |};
          stored := stored w |}.

End WithEnv.

Definition getTasks (w : World) : list Task := tasks (manager w).

Definition getPending (w : World) : list Task :=
  sort (fun a b => createdAt a - createdAt b)
       (filter (fun t => completed t = false) (tasks (manager w))).

Definition getCompleted (w : World) : list Task :=
  sort (fun a b => createdAt b - createdAt a)
       (filter (fun t => completed t = true) (tasks (manager w))).

(** [TaskList]: the task rows it draws, pending ones first, then completed
    ones, each with whether it is drawn as selected. *)
Definition rows (l : list Task) (selectedIndex : Z) : list (Task * bool) :=
  let pending := filter (fun t => completed t = false) l in
  let done := filter (fun t => completed t = true) l in
  imap (fun i task => (task, Z.of_nat i =? selectedIndex)) pending ++
  imap (fun i task => (task, Z.of_nat (length pending + i) =? selectedIndex)) done.

End Tasks.

(** ** updater/checker.ts *)

Module Updater.

(** [s.replace(/^v/, "")] *)
Definition stripV (s : string) : string :=
  match s with
  | String c rest => if Ascii.eqb c "v" then rest else s
  | EmptyString => s
  end.

(** [s.split(".")]: always at least one part. *)
Fixpoint splitDot (s : string) : list string :=
  match s with
  | EmptyString => [EmptyString]
  | String c rest =>
      if Ascii.eqb c "."
      then EmptyString :: splitDot rest
      else match splitDot rest with
           | part :: parts => String c part :: parts
           | [] => [String c EmptyString]
           end
  end.

Section WithParseInt.
(** [parseInt(s, 10)]; [None] stands for NaN. *)
Variable parseInt : string -> option Z.

(** [parts[i] || 0]: a missing part, NaN and 0 all count as 0. *)
Definition part (parts : list (option Z)) (i : nat) : Z :=
  match parts !! i with
  | Some (Some n) => n
  | _ => 0
  end.

(** The loop of [compareVersions], with [n] rounds left, at index [i]. *)
Fixpoint compareFrom (n i : nat) (currentParts latestParts : list (option Z)) : Z :=
  match n with
  | O => 0
  | S n' =>
      let curr := part currentParts i in
      let lat := part latestParts i in
      if curr <? lat then 1
      else if lat <? curr then -1
      else compareFrom n' (S i) currentParts latestParts
  end.

Definition versionParts (version : string) : list (option Z) :=
  map parseInt (splitDot (stripV version)).

Definition compareVersions (current latest : string) : Z :=
  let currentParts := versionParts current in
  let latestParts := versionParts latest in
  compareFrom (Nat.max (length currentParts) (length latestParts)) 0
              currentParts latestParts.

End WithParseInt.

(** What [parseInt(s, 10)] gives on a string of decimal digits; [None] on
    any other string.  Used to run the functions above on examples. *)
Fixpoint digitsValue (acc : Z) (s : string) : option Z :=
  match s with
  | EmptyString => Some acc
  | String c rest =>
      let n := Z.of_nat (Ascii.nat_of_ascii c) in
      if (48 <=? n) && (n <=? 57) then digitsValue (10 * acc + (n - 48)) rest else None
  end.

Definition parseDigits (s : string) : option Z :=
  match s with
  | EmptyString => None
  | _ => digitsValue 0 s
  end.

End Updater.

(** ** index.tsx: the command line *)

Module CLI.

(** The [values] that [parseArgs] returns. *)
Record Values := mkValues {
  opt_work : option string;
  opt_short : option string;
  opt_long : option string;
  opt_cycles : option string;
  opt_data : option string;
  opt_music : option string;
  opt_spotify_token : option string;
  opt_help : bool
}.

Record AppConfig := mkAppConfig {
  pomodoro : PomodoroConfig;
  historyFile : option string;
  musicMode : Manager.MusicMode;
  spotifyToken : option string
}.

(** How [parseConfig] ends: it returns null after the help text, it returns
    a configuration, or it prints lines to the error stream and calls
    [process.exit(1)]. *)
Inductive Outcome :=
| Help
| Config (c : AppConfig)
| Exit (lines : list string).

Section WithParseInt.
(** [parseInt(s, 10)]; [None] stands for NaN. *)
Variable parseInt : string -> option Z.

(** One numeric option: absent or empty keeps the value so far; otherwise
    it must parse to a number that is at least 1. *)
Definition numeric (value : option string) (default : Z) (message : string)
    : string + Z :=
  match value with
  | None => inr default
  | Some text =>
      if decide (text = EmptyString) then inr default
      else match parseInt text with
           | None => inl message
           | Some n => if n <? 1 then inl message else inr n
           end
  end.

Definition parseMusic (value : option string) : string + Manager.MusicMode :=
  match value with
  | None => inr Manager.radio
  | Some text =>
      if decide (text = EmptyString) then inr Manager.radio
      else if decide (text = "radio"%string) then inr Manager.radio
      else if decide (text = "spotify"%string) then inr Manager.spotify
      else if decide (text = "off"%string) then inr Manager.off
      else inl "Error: Music mode must be one of: radio, spotify, off"%string
  end.

(** [parseConfig()]; [parsed] is what [parseArgs] returned, or [Throw] when
    it threw [thrown] because the arguments do not fit the options. *)
Definition parseConfig (parsed : Res Values) (thrown : string) : Outcome :=
  match parsed with
  | Throw => Exit [("Error: " +:+ thrown)%string; "Use --help for usage information"%string]
  | Ok values =>
      if opt_help values then Help
      else
        match numeric (opt_work values) (workDuration DEFAULT_CONFIG)
                      "Error: Work duration must be a positive number" with
        | inl message => Exit [message]
        | inr w =>
        match numeric (opt_short values) (shortBreakDuration DEFAULT_CONFIG)
                      "Error: Short break duration must be a positive number" with
        | inl message => Exit [message]
        | inr s =>
        match numeric (opt_long values) (longBreakDuration DEFAULT_CONFIG)
                      "Error: Long break duration must be a positive number" with
        | inl message => Exit [message]
        | inr l =>
        match numeric (opt_cycles values) (pomodorosBeforeLongBreak DEFAULT_CONFIG)
                      "Error: Cycles must be a positive number" with
        | inl message => Exit [message]
        | inr c =>
        match parseMusic (opt_music values) with
        | inl message => Exit [message]
        | inr m =>
            Config {| pomodoro := {| workDuration := w;
                                     shortBreakDuration := s;
                                     longBreakDuration := l;
                                     pomodorosBeforeLongBreak := c |};
                      historyFile := opt_data values;
                      musicMode := m;
                      spotifyToken := opt_spotify_token values |}
        end end end end end
  end.

End WithParseInt.

End CLI.

(** * Theorems *)

Module EngineFacts.
Import Engine.

Lemma reachable_subscription cfg e :
  reachable cfg e -> tickSubscription e = isRunning (state e).
Proof.
  induction 1 as [|c e H IH]; [reflexivity|].
  destruct c; cbn.
  - unfold start. destruct (isRunning (state e)) eqn:E; cbn; congruence.
  - unfold pause. destruct (isRunning (state e)) eqn:E; cbn; congruence.
  - reflexivity.
  - unfold skip, transition. destruct (nextSession _ _ _ _) as [[? ?] ?]. reflexivity.
  - unfold elapse. destruct (tickSubscription e) eqn:E; cbn; [|congruence].
    unfold tick; cbn.
    destruct (0 <? timeRemaining (state e) - 1); cbn; [congruence|].
    unfold transition; cbn. destruct (nextSession _ _ _ _) as [[? ?] ?]. reflexivity.
Qed.

Lemma wait_paused n e :
  tickSubscription e = false -> wait n e = e.
Proof.
  intros H. induction n as [|n IH]; [reflexivity|].
  cbn [wait exec]. unfold elapse. rewrite H. exact IH.
Qed.

Lemma transition_fields e :
  let e' := fst (transition e) in
  let n := nextSession (config e) (currentSession (state e))
             (completedPomodoros (state e)) (completedWorkSessionsInCycle e) in
  config e' = config e /\
  currentSession (state e') = fst (fst n) /\
  completedPomodoros (state e') = snd (fst n) /\
  completedWorkSessionsInCycle e' = snd n /\
  timeRemaining (state e') = getSessionDuration (fst (fst n)) (config e) * 60 /\
  isRunning (state e') = false /\
  tickSubscription e' = false.
Proof.
  unfold transition. destruct (nextSession _ _ _ _) as [[s c] k]. cbn. tauto.
Qed.

(** The transition looks only at the configuration, the session, the
    completed count and the cycle counter. *)
Lemma transition_same e1 e2 :
  config e1 = config e2 ->
  currentSession (state e1) = currentSession (state e2) ->
  completedPomodoros (state e1) = completedPomodoros (state e2) ->
  completedWorkSessionsInCycle e1 = completedWorkSessionsInCycle e2 ->
  fst (transition e1) = fst (transition e2).
Proof.
  intros Hc Hs Hp Hk. unfold transition. rewrite Hc, Hs, Hp, Hk.
  destruct (nextSession _ _ _ _) as [[s c] k]. reflexivity.
Qed.

(** A running engine with [S n] seconds left completes its session after
    exactly [S n] seconds. *)
Lemma wait_to_zero n : forall e,
  tickSubscription e = true ->
  timeRemaining (state e) = Z.of_nat (S n) ->
  wait (S n) e = fst (transition e).
Proof.
  induction n as [|n IH]; intros e Hsub Htr.
  - cbn [wait exec]. unfold elapse. rewrite Hsub. unfold tick. cbn [state timeRemaining].
    rewrite Htr. cbn [Z.of_nat Pos.of_succ_nat Z.sub Z.add Z.opp Z.pos_sub Z.ltb Z.compare].
    apply transition_same; reflexivity.
  - change (wait (S (S n)) e) with (wait (S n) (exec Elapse e)).
    cbn [exec]. unfold elapse. rewrite Hsub. unfold tick. cbn [state timeRemaining].
    replace (0 <? timeRemaining (state e) - 1) with true
      by (symmetry; apply Z.ltb_lt; lia).
    cbn [fst]. rewrite IH.
    + apply transition_same; reflexivity.
    + exact Hsub.
    + cbn. lia.
Qed.

Lemma complete_transition how e :
  tickSubscription e = isRunning (state e) ->
  0 < timeRemaining (state e) ->
  complete how e = fst (transition e).
Proof.
  intros Hsub Htr. destruct how; [reflexivity|].
  unfold complete.
  destruct (Z.to_nat (timeRemaining (state e))) as [|n] eqn:En; [lia|].
  assert (Hstart : tickSubscription (exec Start e) = true /\
                   timeRemaining (state (exec Start e)) = timeRemaining (state e) /\
                   fst (transition (exec Start e)) = fst (transition e)).
  { cbn [exec]. unfold start. destruct (isRunning (state e)) eqn:Er; cbn.
    - repeat split; congruence.
    - repeat split; try (apply transition_same; reflexivity). }
  destruct Hstart as (H1 & H2 & H3).
  rewrite wait_to_zero; [exact H3 | exact H1 | lia].
Qed.

Lemma duration_pos cfg s : valid_config cfg -> 0 < getSessionDuration s cfg * 60.
Proof. intros (?&?&?&?). destruct s; cbn; lia. Qed.

Lemma transition_good cfg e :
  valid_config cfg ->
  config e = cfg ->
  0 <= completedWorkSessionsInCycle e < pomodorosBeforeLongBreak cfg ->
  0 <= completedPomodoros (state e) ->
  Good cfg (fst (transition e)).
Proof.
  intros Hv Hc Hk Hp.
  destruct (transition_fields e) as (F1 & F2 & F3 & F4 & F5 & F6 & F7).
  assert (Hn : 0 <= snd (nextSession (config e) (currentSession (state e))
                          (completedPomodoros (state e)) (completedWorkSessionsInCycle e))
                 < pomodorosBeforeLongBreak cfg /\
               0 <= snd (fst (nextSession (config e) (currentSession (state e))
                          (completedPomodoros (state e)) (completedWorkSessionsInCycle e)))).
  { rewrite Hc. unfold nextSession. destruct (currentSession (state e)); cbn; try lia.
    destruct (Z.leb_spec (pomodorosBeforeLongBreak cfg) (completedWorkSessionsInCycle e + 1));
      cbn; lia. }
  constructor.
  - congruence.
  - congruence.
  - rewrite F5, Hc. now apply duration_pos.
  - rewrite F4. tauto.
  - rewrite F3. tauto.
Qed.

Lemma reachable_good cfg e :
  valid_config cfg -> reachable cfg e -> Good cfg e.
Proof.
  intros Hv. induction 1 as [|c e H IH].
  - destruct Hv as (?&?&?&?). constructor; cbn; try reflexivity; lia.
  - destruct IH as [Hc Hs Ht Hk Hp]. destruct c; cbn [exec].
    + unfold start. destruct (isRunning (state e)) eqn:E; constructor; cbn; congruence || lia.
    + unfold pause. destruct (isRunning (state e)) eqn:E; constructor; cbn; congruence || lia.
    + constructor; cbn; try congruence; try lia. rewrite Hc. now apply duration_pos.
    + now apply transition_good.
    + unfold elapse. destruct (tickSubscription e) eqn:E; cbn [fst].
      2:{ constructor; congruence || lia. }
      unfold tick. cbn [state timeRemaining].
      destruct (Z.ltb_spec 0 (timeRemaining (state e) - 1)); cbn [fst].
      * constructor; cbn; congruence || lia.
      * apply transition_good; cbn; congruence || lia.
Qed.

Lemma reachable_wait cfg n : forall e, reachable cfg e -> reachable cfg (wait n e).
Proof.
  induction n as [|n IH]; intros e H; [exact H|].
  cbn [wait]. apply IH. now constructor.
Qed.

Lemma reachable_complete cfg how e : reachable cfg e -> reachable cfg (complete how e).
Proof.
  intros H. destruct how; cbn [complete].
  - now constructor.
  - apply reachable_wait. now constructor.
Qed.

(** The default cycle of four: three short breaks, then the long one. *)
Example default_cycle_sessions :
  map (fun k => currentSession (state (completeAll (repeat BySkip k) (init DEFAULT_CONFIG))))
      [0; 1; 2; 3; 4; 5; 6; 7; 8]%nat
  = [work; shortBreak; work; shortBreak; work; shortBreak; work; longBreak; work].
Proof. reflexivity. Qed.

(** A full 25-minute session run down by the clock ends in a short break
    with one pomodoro counted and the timer stopped. *)
Example default_first_session :
  getState (complete ByTicks (init DEFAULT_CONFIG)) = mkState shortBreak 300 false 1.
Proof. vm_compute. reflexivity. Qed.

(** C1.  In every reachable engine state, [pause()] clears [isRunning]
    and leaves [timeRemaining], [currentSession] and [completedPomodoros]
    as they were; however many seconds of real time pass while paused, the
    engine does not change; the next [start()] sets [isRunning] again with
    the very same [timeRemaining], and the first second after it counts
    down from that value. *)
Theorem pause_then_start_resumes_exactly cfg e (seconds : nat) :
  reachable cfg e ->
  let paused := pause e in
  let resumed := start (wait seconds paused) in
  isRunning (state paused) = false /\
  timeRemaining (state paused) = timeRemaining (state e) /\
  currentSession (state paused) = currentSession (state e) /\
  completedPomodoros (state paused) = completedPomodoros (state e) /\
  wait seconds paused = paused /\
  isRunning (state resumed) = true /\
  timeRemaining (state resumed) = timeRemaining (state e) /\
  currentSession (state resumed) = currentSession (state e) /\
  completedPomodoros (state resumed) = completedPomodoros (state e) /\
  (1 < timeRemaining (state e) ->
   timeRemaining (state (exec Elapse resumed)) = timeRemaining (state e) - 1).
Proof.
  intros Hr paused resumed.
  pose proof (reachable_subscription cfg e Hr) as Hsub.
  assert (Hp : isRunning (state paused) = false /\ tickSubscription paused = false /\
               timeRemaining (state paused) = timeRemaining (state e) /\
               currentSession (state paused) = currentSession (state e) /\
               completedPomodoros (state paused) = completedPomodoros (state e)).
  { subst paused. unfold pause.
    destruct (isRunning (state e)) eqn:E; cbn; repeat split; congruence. }
  destruct Hp as (P1 & P2 & P3 & P4 & P5).
  assert (Hw : wait seconds paused = paused) by now apply wait_paused.
  assert (Hres : resumed =
                 {| config := config paused;
                    state := {| currentSession := currentSession (state paused);
                                timeRemaining := timeRemaining (state paused);
                                isRunning := true;
                                completedPomodoros := completedPomodoros (state paused) |};
                    completedWorkSessionsInCycle := completedWorkSessionsInCycle paused;
                    tickSubscription := true |}).
  { subst resumed. rewrite Hw. unfold start. now rewrite P1. }
  repeat split; try assumption; try (rewrite Hres; cbn; congruence).
  intros Hgt. rewrite Hres. cbn [exec]. unfold elapse, tick. cbn.
  replace (0 <? timeRemaining (state paused) - 1) with true
    by (symmetry; apply Z.ltb_lt; lia).
  cbn. lia.
Qed.

(** The engine of the default configuration, started, two seconds in,
    paused for five seconds and started again. *)
Lemma pause_then_start_resumes_exactly_witness :
  reachable DEFAULT_CONFIG (wait 2 (start (init DEFAULT_CONFIG))) /\
  timeRemaining (state (start (wait 5 (pause (wait 2 (start (init DEFAULT_CONFIG))))))) = 1498.
Proof.
  assert (H : reachable DEFAULT_CONFIG (wait 2 (start (init DEFAULT_CONFIG)))).
  { apply reachable_wait. apply (reach_step _ Start). constructor. }
  split; [exact H|].
  destruct (pause_then_start_resumes_exactly DEFAULT_CONFIG _ 5 H)
    as (_ & _ & _ & _ & _ & _ & Ht & _).
  rewrite Ht. reflexivity.
Defined.

(** C2.  With a valid configuration, a Work session that completes, whether
    by its last tick or by [skip()], adds one to [completedPomodoros] and to
    the cycle counter; if the counter has then reached
    [pomodorosBeforeLongBreak] the next session is LongBreak and the counter
    is back at 0, otherwise the next session is ShortBreak; a completed
    break is always followed by Work; and with a cycle length of 2 the
    sessions run Work, ShortBreak, Work, LongBreak, Work, ShortBreak, ... *)
Theorem session_cycle cfg :
  valid_config cfg ->
  (forall e how, reachable cfg e -> currentSession (state e) = work ->
     let e' := complete how e in
     completedPomodoros (state e') = completedPomodoros (state e) + 1 /\
     (completedWorkSessionsInCycle e + 1 = pomodorosBeforeLongBreak cfg /\
      currentSession (state e') = longBreak /\
      completedWorkSessionsInCycle e' = 0
      \/
      completedWorkSessionsInCycle e + 1 < pomodorosBeforeLongBreak cfg /\
      currentSession (state e') = shortBreak /\
      completedWorkSessionsInCycle e' = completedWorkSessionsInCycle e + 1)) /\
  (forall e how, reachable cfg e -> currentSession (state e) <> work ->
     let e' := complete how e in
     currentSession (state e') = work /\
     completedPomodoros (state e') = completedPomodoros (state e) /\
     completedWorkSessionsInCycle e' = completedWorkSessionsInCycle e) /\
  (pomodorosBeforeLongBreak cfg = 2 ->
   forall hows,
     currentSession (state (completeAll hows (init cfg))) = cycleOfTwo (length hows)).
Proof.
  intros Hv.
  assert (Hstep : forall e how, reachable cfg e ->
            complete how e = fst (transition e) /\ Good cfg e).
  { intros e how Hr. pose proof (reachable_good cfg e Hv Hr) as G.
    split; [|exact G]. destruct G. now apply complete_transition. }
  split; [|split].
  - intros e how Hr Hw e'. destruct (Hstep e how Hr) as [He [Hc _ _ Hk _]].
    subst e'. rewrite He.
    destruct (transition_fields e) as (_ & F2 & F3 & F4 & _).
    rewrite F2, F3, F4, Hc, Hw. unfold nextSession.
    destruct (Z.leb_spec (pomodorosBeforeLongBreak cfg) (completedWorkSessionsInCycle e + 1));
      cbn; split; try reflexivity; [left | right]; repeat split; lia.
  - intros e how Hr Hw e'. destruct (Hstep e how Hr) as [He _].
    subst e'. rewrite He.
    destruct (transition_fields e) as (_ & F2 & F3 & F4 & _).
    rewrite F2, F3, F4. unfold nextSession.
    destruct (currentSession (state e)); [congruence | |]; cbn; repeat split.
  - intros H2 hows.
    assert (Hall : reachable cfg (completeAll hows (init cfg)) /\
              currentSession (state (completeAll hows (init cfg))) = cycleOfTwo (length hows) /\
              completedWorkSessionsInCycle (completeAll hows (init cfg)) =
                match (length hows mod 4)%nat with
                | 0%nat | 3%nat => 0
                | _ => 1
                end).
    { induction hows as [|how hows IH] using rev_ind.
      - cbn. repeat split. constructor.
      - unfold completeAll in *. rewrite fold_left_app. cbn [fold_left].
        destruct IH as (Hr & Hs & Hk).
        set (e := fold_left _ hows (init cfg)) in *.
        split; [now apply reachable_complete|].
        destruct (Hstep e how Hr) as [He [Hc _ _ _ _]]. rewrite He.
        destruct (transition_fields e) as (_ & F2 & _ & F4 & _).
        rewrite F2, F4, Hc, Hs, Hk. unfold nextSession, cycleOfTwo. rewrite H2.
        rewrite length_app. cbn [length].
        replace ((length hows + 1) mod 4)%nat
          with ((length hows mod 4 + 1) mod 4)%nat
          by (rewrite Nat.Div0.add_mod_idemp_l; reflexivity).
        pose proof (Nat.mod_upper_bound (length hows) 4 ltac:(lia)) as Hb.
        destruct (length hows mod 4)%nat as [|[|[|[|k]]]]; cbn; try lia; split; reflexivity. }
    apply Hall.
Qed.

(** A cycle of length two, completed three times in mixed ways. *)
Lemma session_cycle_witness :
  valid_config (mkConfig 25 5 15 2) /\
  currentSession
    (state (completeAll [BySkip; ByTicks; BySkip] (init (mkConfig 25 5 15 2)))) = longBreak.
Proof.
  assert (Hv : valid_config (mkConfig 25 5 15 2)) by (unfold valid_config; cbn; lia).
  split; [exact Hv|].
  destruct (session_cycle (mkConfig 25 5 15 2) Hv) as (_ & _ & Hseq).
  exact (Hseq eq_refl [BySkip; ByTicks; BySkip]).
Defined.







End EngineFacts.

Module RadioFacts.
Import Radio.

Ltac world w :=
  let proc := fresh "proc" in
  let idx := fresh "idx" in
  let playing := fresh "playing" in
  let cmd := fresh "cmd" in
  let rn := fresh "rn" in
  let lv := fresh "lv" in
  let sp := fresh "sp" in
  let pk := fresh "pk" in
  let rq := fresh "rq" in
  destruct w as [[proc idx playing cmd] [rn lv sp pk rq]].

Ltac monad :=
  unfold play, stop, pause, resume, toggle, cleanup, discard, bind, ret, this, throw,
    try_catch, set_process, set_isPlaying, set_currentStationIndex, Bun_spawn, kill;
  cbn [player os process currentStationIndex isPlaying playerCommand
       running liveHandles spawned peak requests fst snd].

Lemma bind_ok {A B} (m : M A) (k : A -> M B) w a w1 :
  m w = (Ok a, w1) -> bind m k w = k a w1.
Proof. intros E. unfold bind. now rewrite E. Qed.

Lemma bind_throw {A B} (m : M A) (k : A -> M B) w w1 :
  m w = (Throw, w1) -> bind m k w = (Throw, w1).
Proof. intros E. unfold bind. now rewrite E. Qed.

Lemma inv_no_handle w :
  Inv w -> process (player w) = None -> liveHandles (os w) = ∅.
Proof.
  intros [_ _ Hl _ _] Hp. apply set_eq. intros h. split; [|set_solver].
  intros Hin. apply Hl in Hin. congruence.
Qed.

Lemma inv_size w : Inv w -> (size (liveHandles (os w)) <= 1)%nat.
Proof.
  intros I. destruct (process (player w)) as [h|] eqn:E.
  - assert (Hsub : liveHandles (os w) ⊆ {[ h ]}).
    { intros h' Hin. apply (inv_live w I) in Hin. set_solver. }
    apply subseteq_size in Hsub. rewrite size_singleton in Hsub. exact Hsub.
  - rewrite (inv_no_handle w I E), size_empty. lia.
Qed.

Lemma construct_inv env : Inv (construct env).
Proof. constructor; cbn; first [reflexivity | lia | discriminate | set_solver]. Qed.

(** [play()] never throws.  It either leaves the world alone apart from
    counting a refused spawn, or it starts a process and holds its handle,
    the one live handle. *)
Lemma play_spec env w :
  Inv w ->
  exists b w',
    play env w = (Ok b, w') /\ Inv w' /\
    currentStationIndex (player w') = currentStationIndex (player w) /\
    playerCommand (player w') = playerCommand (player w) /\
    (b = false -> player w' = player w /\ liveHandles (os w') = liveHandles (os w) /\
                  running (os w') = running (os w)) /\
    (b = true -> isPlaying (player w') = true) /\
    (isPlaying (player w) = false -> spawn_throws env (requests (os w)) = true ->
     b = false).
Proof.
  intros I. pose proof (inv_no_handle w I) as Hno. destruct I as [I1 I2 I3 I4 I5].
  world w. cbn in *. monad.
  destruct cmd as [c|].
  { destruct playing.
    - eexists _, _. split; [reflexivity|].
      split; [constructor; cbn; auto|]. repeat split; cbn; auto; discriminate.
    - specialize (I1 eq_refl). subst proc. specialize (Hno eq_refl). subst lv.
      destruct (stationAt idx) as [st|]; cbn.
      + destruct (spawn_throws env rq) eqn:Esp; cbn.
        * eexists _, _. split; [reflexivity|].
          split; [constructor; cbn; auto|].
          repeat split; cbn; auto; try discriminate.
        * eexists _, _. split; [reflexivity|].
          split.
          { constructor; cbn; auto; try discriminate.
            - intros h Hin. rewrite union_empty_r_L in Hin.
              apply elem_of_singleton in Hin. congruence.
            - intros h Hh. inversion Hh; subst h.
              apply elem_of_union_l, elem_of_singleton. reflexivity.
            - rewrite union_empty_r_L, size_singleton. lia. }
          repeat split; cbn; auto; try discriminate.
      + eexists _, _. split; [reflexivity|].
        split; [constructor; cbn; auto|].
        repeat split; cbn; auto; try discriminate. }
  eexists _, _. split; [reflexivity|].
  split; [constructor; cbn; auto|]. repeat split; cbn; auto; discriminate.
Qed.

(** Killing the handle that is held leaves no live handle. *)
Lemma inv_killed w h :
  Inv w -> process (player w) = Some h ->
  liveHandles (os w) ∖ {[ h ]} = (∅ : gset Subprocess).
Proof.
  intros I Hp. apply set_eq. intros h'.
  split; [|intros Hin; now apply not_elem_of_empty in Hin].
  intros Hin. apply elem_of_difference in Hin as [Hin Hne].
  apply (inv_live w I) in Hin. exfalso. apply Hne, elem_of_singleton. congruence.
Qed.

(** [stop()] either sends the kill and clears the handle, or throws out of
    the kill with the controller untouched. *)
Lemma stop_spec env w :
  Inv w ->
  (exists w',
     stop env w = (Ok tt, w') /\ Inv w' /\
     process (player w') = None /\ isPlaying (player w') = false /\
     currentStationIndex (player w') = currentStationIndex (player w) /\
     playerCommand (player w') = playerCommand (player w) /\
     liveHandles (os w') = ∅ /\
     (process (player w) <> None -> kill_throws env (requests (os w)) = false))
  \/
  (exists w',
     stop env w = (Throw, w') /\ Inv w' /\ player w' = player w /\
     liveHandles (os w') = liveHandles (os w) /\
     process (player w) <> None /\ kill_throws env (requests (os w)) = true).
Proof.
  intros I. pose proof (inv_no_handle w I) as Hno.
  pose proof (inv_killed w) as Hkl. specialize (fun h => Hkl h I).
  destruct I as [I1 I2 I3 I4 I5].
  world w. cbn in *. monad.
  destruct proc as [h|].
  - monad. destruct (kill_throws env rq) eqn:K.
    + right. eexists. split; [reflexivity|].
      split; [constructor; cbn; auto|].
      repeat split; cbn; auto; discriminate.
    + left. eexists. split; [reflexivity|].
      rewrite (Hkl h eq_refl).
      split; [constructor; cbn; auto; try discriminate;
              intros h' Hin; now apply not_elem_of_empty in Hin|].
      repeat split; cbn; auto.
  - left. specialize (Hno eq_refl). subst lv.
    eexists. split; [reflexivity|].
    split; [constructor; cbn; auto|].
    repeat split; cbn; auto; congruence.
Qed.

Lemma inv_set_index i w :
  Inv w -> Inv (snd (set_currentStationIndex i w)).
Proof. intros [I1 I2 I3 I4 I5]. constructor; cbn; auto. Qed.

Ltac switching :=
  unfold nextStation, previousStation, setStation, toggle, discard, bind, this, ret;
  cbn beta iota.

(** The three station switches keep the invariant. *)
Lemma switch_inv env (f : RadioPlayer -> Z) w :
  Inv w ->
  Inv (snd ((p <- this ;;
             let wasPlaying := isPlaying p in
             stop env ;;;
             p' <- this ;;
             set_currentStationIndex (f p') ;;;
             if wasPlaying then play env ;;; ret tt else ret tt) w)).
Proof.
  intros I. switching.
  destruct (stop_spec env w I) as [(w1 & E & I1 & _) | (w1 & E & I1 & _)];
    rewrite E; cbn beta iota; [|exact I1].
  pose proof (inv_set_index (f (player w1)) w1 I1) as I1'.
  destruct (set_currentStationIndex (f (player w1)) w1) as [r w2] eqn:E2.
  assert (r = Ok tt) by (unfold set_currentStationIndex in E2; congruence). subst r.
  cbn [snd] in I1'. cbn beta iota.
  destruct (isPlaying (player w)); [|exact I1'].
  destruct (play_spec env w2 I1') as (b & w3 & E3 & I3 & _). rewrite E3. exact I3.
Qed.

Lemma call_inv env op w : Inv w -> Inv (snd (call env op w)).
Proof.
  intros I. destruct op; cbn [call].
  - unfold discard, bind.
    destruct (play_spec env w I) as (b & w' & E & I' & _). rewrite E. exact I'.
  - destruct (stop_spec env w I) as [(w' & E & I' & _) | (w' & E & I' & _)];
      rewrite E; exact I'.
  - unfold pause.
    destruct (stop_spec env w I) as [(w' & E & I' & _) | (w' & E & I' & _)];
      rewrite E; exact I'.
  - unfold discard, bind, resume.
    destruct (play_spec env w I) as (b & w' & E & I' & _). rewrite E. exact I'.
  - switching. destruct (isPlaying (player w)).
    + destruct (stop_spec env w I) as [(w' & E & I' & _) | (w' & E & I' & _)];
        rewrite E; exact I'.
    + destruct (play_spec env w I) as (b & w' & E & I' & _). rewrite E. exact I'.
  - apply (switch_inv env (fun p => Z.rem (currentStationIndex p + 1) totalStations) w I).
  - apply (switch_inv env
             (fun p => Z.rem (currentStationIndex p - 1 + totalStations) totalStations) w I).
  - unfold setStation. destruct ((0 <=? index) && (index <? totalStations)); [|exact I].
    apply (switch_inv env (fun _ => index) w I).
  - unfold cleanup.
    destruct (stop_spec env w I) as [(w' & E & I' & _) | (w' & E & I' & _)];
      rewrite E; exact I'.
  - destruct I as [I1 I2 I3 I4 I5]. constructor; cbn; auto.
Qed.

Lemma run_inv env ops : forall w, Inv w -> Inv (run env ops w).
Proof.
  induction ops as [|op ops IH]; intros w I; [exact I|].
  cbn. apply IH. now apply call_inv.
Qed.

(** Without any assumption on the world: [stop()] and [play()] leave the
    selected station alone, and [play()] always returns. *)
Lemma stop_frame env w :
  (exists w', stop env w = (Ok tt, w') /\
     currentStationIndex (player w') = currentStationIndex (player w))
  \/
  (exists w', stop env w = (Throw, w') /\ kill_throws env (requests (os w)) = true).
Proof.
  world w. monad. destruct proc as [h|]; monad.
  - destruct (kill_throws env rq) eqn:K.
    + right. eexists. split; reflexivity.
    + left. eexists. split; reflexivity.
  - left. eexists. split; reflexivity.
Qed.

Lemma play_frame env w :
  exists b w', play env w = (Ok b, w') /\
    currentStationIndex (player w') = currentStationIndex (player w).
Proof.
  world w. monad. destruct cmd as [c|].
  - destruct playing.
    + eexists _, _. split; reflexivity.
    + destruct (stationAt idx) as [st|]; cbn.
      * destruct (spawn_throws env rq); cbn; eexists _, _; split; reflexivity.
      * eexists _, _. split; reflexivity.
  - eexists _, _. split; reflexivity.
Qed.

Lemma switch_frame env (f : Z -> Z) w :
  let m := (p <- this ;;
            let wasPlaying := isPlaying p in
            stop env ;;;
            p' <- this ;;
            set_currentStationIndex (f (currentStationIndex p')) ;;;
            if wasPlaying then play env ;;; ret tt else ret tt) in
  (forall w', m w = (Ok tt, w') ->
     currentStationIndex (player w') = f (currentStationIndex (player w))) /\
  (kill_throws env (requests (os w)) = false -> exists w', m w = (Ok tt, w')).
Proof.
  intros m. subst m. switching.
  destruct (stop_frame env w) as [(w1 & E & Hi) | (w1 & E & K)]; rewrite E; cbn beta iota.
  - unfold set_currentStationIndex. cbn beta iota. rewrite Hi.
    set (w2 := {| player := _; os := os w1 |}).
    destruct (isPlaying (player w)).
    + destruct (play_frame env w2) as (b & w3 & E3 & Hi3). rewrite E3.
      split; [|eauto]. intros w' Hw. inversion Hw; subst w'. exact Hi3.
    + split; [|eauto]. intros w' Hw. inversion Hw; subst w'. reflexivity.
  - split; [discriminate | congruence].
Qed.

Lemma rem_next i :
  0 <= i < totalStations -> Z.rem (i + 1) totalStations = (i + 1) mod totalStations.
Proof. intros H. apply Z.rem_mod_nonneg; unfold totalStations in *; cbn in *; lia. Qed.

Lemma rem_previous i :
  0 <= i < totalStations ->
  Z.rem (i - 1 + totalStations) totalStations = (i - 1) mod totalStations.
Proof.
  intros H. rewrite Z.rem_mod_nonneg by (unfold totalStations in *; cbn in *; lia).
  rewrite <- (Z.mod_add (i - 1) 1 totalStations) by (unfold totalStations; cbn; lia).
  f_equal; lia.
Qed.

Lemma times_next env n : forall w,
  0 <= currentStationIndex (player w) < totalStations ->
  (forall w', times n (nextStation env) w = (Ok tt, w') ->
     currentStationIndex (player w') =
       (currentStationIndex (player w) + Z.of_nat n) mod totalStations) /\
  ((forall k, kill_throws env k = false) ->
     exists w', times n (nextStation env) w = (Ok tt, w')).
Proof.
  induction n as [|n IH]; intros w Hi.
  - cbn [times]. unfold ret. split; [|eauto].
    intros w' Hw. inversion Hw; subst w'.
    rewrite Z.add_0_r, Z.mod_small; [reflexivity | exact Hi].
  - cbn [times].
    destruct (switch_frame env (fun i => Z.rem (i + 1) totalStations) w) as [Hidx Htot].
    change (p <- this ;; _) with (nextStation env) in Hidx, Htot.
    destruct (nextStation env w) as [[[]|] w1] eqn:E.
    + rewrite (bind_ok _ _ _ _ _ E).
      specialize (Hidx w1 eq_refl). rewrite rem_next in Hidx by exact Hi.
      assert (Hi1 : 0 <= currentStationIndex (player w1) < totalStations).
      { rewrite Hidx. apply Z.mod_pos_bound. unfold totalStations; cbn; lia. }
      destruct (IH w1 Hi1) as [IH1 IH2]. split; [|exact IH2].
      intros w' Hw. rewrite (IH1 w' Hw), Hidx.
      rewrite Zplus_mod_idemp_l. f_equal. lia.
    + rewrite (bind_throw _ _ _ _ E).
      split; [discriminate|].
      intros K. destruct (Htot (K _)) as (w' & Hw). discriminate.
Qed.

(** [play()] starts a process only when the controller holds no handle and
    no handle is live. *)
Lemma play_spawns_only_idle env w :
  Inv w ->
  spawned (os (snd (play env w))) <> spawned (os w) ->
  process (player w) = None /\ liveHandles (os w) = ∅ /\
  spawned (os (snd (play env w))) = S (spawned (os w)) /\
  liveHandles (os (snd (play env w))) = {[ spawned (os w) ]} /\
  process (player (snd (play env w))) = Some (spawned (os w)).
Proof.
  intros I. pose proof (inv_no_handle w I) as Hno. destruct I as [I1 I2 I3 I4 I5].
  world w. cbn in *. monad.
  destruct cmd as [c|]; [|cbn; congruence].
  destruct playing; [cbn; congruence|].
  specialize (I1 eq_refl). subst proc. specialize (Hno eq_refl). subst lv.
  destruct (stationAt idx) as [st|]; cbn; [|congruence].
  destruct (spawn_throws env rq); cbn; [congruence|].
  intros _. repeat split. apply union_empty_r_L.
Qed.

(** With nothing playing, switching stations needs nothing from the
    system and always returns. *)
Lemma idle_next env w :
  isPlaying (player w) = false -> process (player w) = None ->
  exists w', nextStation env w = (Ok tt, w') /\
    isPlaying (player w') = false /\ process (player w') = None.
Proof.
  world w. cbn. intros -> ->. eexists. split; [reflexivity|]. split; reflexivity.
Qed.

Lemma idle_previous env w :
  isPlaying (player w) = false -> process (player w) = None ->
  exists w', previousStation env w = (Ok tt, w').
Proof. world w. cbn. intros -> ->. eexists. reflexivity. Qed.

Lemma idle_times env n : forall w,
  isPlaying (player w) = false -> process (player w) = None ->
  exists w', times n (nextStation env) w = (Ok tt, w').
Proof.
  induction n as [|n IH]; intros w Hp Hh; cbn [times].
  - eexists. reflexivity.
  - destruct (idle_next env w Hp Hh) as (w1 & E & Hp1 & Hh1).
    rewrite (bind_ok _ _ _ _ _ E). now apply IH.
Qed.

(** Toggling twice on a working machine: playing, then stopped again with
    no handle left; the process was sent the kill and runs until it ends. *)
Example toggle_twice :
  let env := mkEnv (fun _ => Ok 0) (fun _ => false) (fun _ => false) in
  isPlaying (player (run env [OpToggle] (construct env))) = true /\
  player (run env [OpToggle; OpToggle] (construct env)) = player (construct env) /\
  liveHandles (os (run env [OpToggle; OpToggle] (construct env))) = ∅ /\
  running (os (run env [OpToggle; OpToggle] (construct env))) = {[ 0%nat ]} /\
  running (os (run env [OpToggle; OpToggle; ProcessExits 0%nat] (construct env))) = ∅.
Proof. vm_compute. repeat split. Qed.

(** [stop()] does not wait for the process it killed: after [play()] and
    [nextStation()] on a working machine the controller holds the one live
    handle, that of the new process, while the old process, which was sent
    the kill, is still running beside the new one until it ends. *)
Example killed_player_runs_on :
  let env := mkEnv (fun _ => Ok 0) (fun _ => false) (fun _ => false) in
  let w := run env [OpPlay; OpNextStation] (construct env) in
  process (player w) = Some 1%nat /\
  liveHandles (os w) = {[ 1%nat ]} /\ peak (os w) = 1%nat /\
  running (os w) = {[ 0%nat; 1%nat ]} /\
  running (os (run env [ProcessExits 0%nat] w)) = {[ 1%nat ]}.
Proof. vm_compute. repeat split. Qed.

Lemma silent_call env op w :
  playerCommand (player w) = None ->
  isPlaying (player w) = false ->
  process (player w) = None ->
  let w' := snd (call env op w) in
  playerCommand (player w') = None /\ isPlaying (player w') = false /\
  process (player w') = None /\ spawned (os w') = spawned (os w).
Proof.
  world w. cbn. intros -> -> ->.
  destruct op; cbn; try (repeat split; fail).
  unfold setStation. destruct ((0 <=? index) && (index <? totalStations)); cbn; repeat split.
Qed.

(** C3.  Whatever the machine does and whatever operations are called in
    whatever order (including a player process ending), at most one process
    handle is live afterwards, a handle being live from the spawn that
    returned it until a kill is sent through it; there never were two live
    handles at once; the [process] field is null whenever [isPlaying] is
    false; the live handle is the one the field holds, and the handle the
    field holds is live; and a [play()] that spawns does so only when the
    field is null and no handle is live, and then holds the new handle. *)
Theorem one_live_handle env ops :
  let w := run env ops (construct env) in
  (size (liveHandles (os w)) <= 1)%nat /\
  (peak (os w) <= 1)%nat /\
  (isPlaying (player w) = false -> process (player w) = None) /\
  (forall h, h ∈ liveHandles (os w) <-> process (player w) = Some h) /\
  (spawned (os (snd (play env w))) <> spawned (os w) ->
   process (player w) = None /\ liveHandles (os w) = ∅ /\
   liveHandles (os (snd (play env w))) = {[ spawned (os w) ]} /\
   process (player (snd (play env w))) = Some (spawned (os w))).
Proof.
  intros w.
  assert (I : Inv w) by (apply run_inv, construct_inv).
  split; [now apply inv_size|].
  split; [apply (inv_peak w I)|]. split; [apply (inv_flag w I)|].
  split; [intros h; split; [apply (inv_live w I) | apply (inv_held w I)]|].
  intros Hs. destruct (play_spawns_only_idle env w I Hs) as (H1 & H2 & _ & H4 & H5). auto.
Qed.

(** C4.  When [playerCommand] is null, [play()] returns false and the
    world is exactly as before: no process is spawned, [isPlaying] and the
    station index keep their values.  On a machine where no player was
    found, [isPlaying] is false and no process was ever spawned, whatever
    was called before. *)
Theorem play_without_player env :
  (forall w, playerCommand (player w) = None -> play env w = (Ok false, w)) /\
  (detectPlayer env players = None ->
   forall ops,
     let w := run env ops (construct env) in
     playerCommand (player w) = None /\ isPlaying (player w) = false /\
     process (player w) = None /\ spawned (os w) = 0%nat /\
     play env w = (Ok false, w)).
Proof.
  assert (H1 : forall w, playerCommand (player w) = None -> play env w = (Ok false, w)).
  { intros w Hc. world w. cbn in Hc. subst cmd. reflexivity. }
  split; [exact H1|].
  intros Hd ops.
  assert (Hall : forall ops w,
            playerCommand (player w) = None -> isPlaying (player w) = false ->
            process (player w) = None ->
            playerCommand (player (run env ops w)) = None /\
            isPlaying (player (run env ops w)) = false /\
            process (player (run env ops w)) = None /\
            spawned (os (run env ops w)) = spawned (os w)).
  { clear ops. induction ops as [|op ops IH]; intros w Hc Hp Hh; [cbn; auto|].
    cbn [run fold_left].
    destruct (silent_call env op w Hc Hp Hh) as (Hc' & Hp' & Hh' & Hs').
    destruct (IH _ Hc' Hp' Hh') as (R1 & R2 & R3 & R4).
    unfold run in *. rewrite R4, Hs'. auto. }
  intros w. destruct (Hall ops (construct env) Hd eq_refl eq_refl) as (R1 & R2 & R3 & R4).
  repeat split; auto.
Qed.

(** A machine without any of the four players. *)
Lemma play_without_player_witness :
  detectPlayer (mkEnv (fun _ => Ok 1) (fun _ => false) (fun _ => false)) players = None /\
  play (mkEnv (fun _ => Ok 1) (fun _ => false) (fun _ => false))
       (run (mkEnv (fun _ => Ok 1) (fun _ => false) (fun _ => false))
            [OpNextStation; OpToggle]
            (construct (mkEnv (fun _ => Ok 1) (fun _ => false) (fun _ => false))))
  = (Ok false,
     run (mkEnv (fun _ => Ok 1) (fun _ => false) (fun _ => false))
         [OpNextStation; OpToggle]
         (construct (mkEnv (fun _ => Ok 1) (fun _ => false) (fun _ => false)))).
Proof.
  split; [reflexivity|].
  destruct (play_without_player (mkEnv (fun _ => Ok 1) (fun _ => false) (fun _ => false)))
    as [_ H].
  destruct (H eq_refl [OpNextStation; OpToggle]) as (_ & _ & _ & _ & Hplay).
  exact Hplay.
Defined.

(** C5, as the claim has it, fails for [stop()]: on a machine with mpv,
    once a stream was started and its process has ended by itself, a kill
    that throws makes [stop()] throw instead of returning a result; the
    handle stays in [process] and [isPlaying] stays true although no player
    process is running. *)
Lemma stop_lets_kill_error_escape :
  let env := mkEnv (fun _ => Ok 0) (fun _ => false) (fun _ => true) in
  let w := run env [OpPlay; ProcessExits 0%nat] (construct env) in
  process (player w) = Some 0%nat /\
  fst (stop env w) = Throw /\
  process (player (snd (stop env w))) = Some 0%nat /\
  isPlaying (player (snd (stop env w))) = true /\
  running (os (snd (stop env w))) = ∅.
Proof. vm_compute. repeat split. Qed.

(** C5, amended.  After any operations, on any machine: [play()] never
    throws; an error from spawning is caught inside it and comes back as the
    result false, with the controller unchanged, that is without a handle,
    with [isPlaying] false and with no live handle; in every case the world
    after [play()] is consistent: [isPlaying] is true exactly when a handle
    is held, and the handle held is the one live handle.  [stop()] has no
    result value; when the kill returns it clears the handle and
    [isPlaying], no live handle is left and the world is consistent; when
    the kill throws, [stop()] throws and the controller is as it was. *)
Theorem spawn_failure_is_contained env ops :
  let w := run env ops (construct env) in
  (exists b w',
     play env w = (Ok b, w') /\ Inv w' /\
     (isPlaying (player w') = true <-> process (player w') <> None) /\
     (forall h, h ∈ liveHandles (os w') <-> process (player w') = Some h) /\
     (b = false -> player w' = player w) /\
     (isPlaying (player w) = false ->
      spawn_throws env (requests (os w)) = true ->
      b = false /\ process (player w') = None /\ isPlaying (player w') = false /\
      liveHandles (os w') = ∅)) /\
  (kill_throws env (requests (os w)) = false ->
   exists w',
     stop env w = (Ok tt, w') /\ Inv w' /\
     process (player w') = None /\ isPlaying (player w') = false /\
     liveHandles (os w') = ∅) /\
  (process (player w) <> None -> kill_throws env (requests (os w)) = true ->
   exists w', stop env w = (Throw, w') /\ Inv w' /\ player w' = player w).
Proof.
  intros w.
  assert (I : Inv w) by (apply run_inv, construct_inv).
  clearbody w. split; [|split].
  - destruct (play_spec env w I) as (b & w' & E & I' & _ & _ & Hf & _ & Hs).
    exists b, w'. split; [exact E|]. split; [exact I'|].
    split; [|split; [|split]].
    + split.
      * intros Hp Hn. apply (inv_handle w' I') in Hn. congruence.
      * intros Hn. destruct (isPlaying (player w')) eqn:Ep; [reflexivity|].
        now apply (inv_flag w' I') in Ep.
    + intros h. split; [apply (inv_live w' I') | apply (inv_held w' I')].
    + intros Hb. now apply Hf.
    + intros Hp Ht. specialize (Hs Hp Ht). destruct (Hf Hs) as (Hpl & Hl & _).
      rewrite Hpl, Hl. pose proof (inv_flag w I Hp) as Hh.
      repeat split; auto. now apply inv_no_handle.
  - intros K.
    destruct (stop_spec env w I) as [(w' & E & I' & H1 & H2 & _ & _ & H3 & _)
                                    | (w' & E & _ & _ & _ & _ & K')];
      [|congruence].
    exists w'. auto.
  - intros Hp K.
    destruct (stop_spec env w I) as [(w' & E & _ & _ & _ & _ & _ & _ & K')
                                    | (w' & E & I' & Hpl & _)].
    + specialize (K' Hp). congruence.
    + exists w'. auto.
Qed.

(** A machine with mpv where the first spawn goes through and the second
    fails: a stream is started and stopped, and the next [play()] comes back
    with false. *)
Lemma spawn_failure_is_contained_witness :
  exists w',
    play (mkEnv (fun _ => Ok 0) (fun k => Nat.ltb 0 k) (fun _ => false))
         (run (mkEnv (fun _ => Ok 0) (fun k => Nat.ltb 0 k) (fun _ => false))
              [OpPlay; OpStop]
              (construct (mkEnv (fun _ => Ok 0) (fun k => Nat.ltb 0 k) (fun _ => false))))
      = (Ok false, w') /\
    process (player w') = None /\ isPlaying (player w') = false /\
    liveHandles (os w') = ∅.
Proof.
  pose proof (spawn_failure_is_contained
                (mkEnv (fun _ => Ok 0) (fun k => Nat.ltb 0 k) (fun _ => false))
                [OpPlay; OpStop]) as H.
  cbv zeta in H. destruct H as [(b & w' & E & _ & _ & _ & _ & H) _].
  destruct (H eq_refl eq_refl) as (Hb & Hp & Hf & Hl).
  exists w'. subst b. auto.
Defined.

(** C8.  From every station index, a [nextStation()] that returns has moved
    the index to the next one modulo the number of stations, a
    [previousStation()] that returns has moved it to the previous one modulo
    that number, and [totalStations] calls of [nextStation()] in a row end
    on the index they started from.  The calls do return whenever nothing
    is playing, and whenever killing the old process does not throw. *)
Theorem station_index_wraps env w :
  0 <= currentStationIndex (player w) < totalStations ->
  (forall w', nextStation env w = (Ok tt, w') ->
     currentStationIndex (player w') =
       (currentStationIndex (player w) + 1) mod totalStations) /\
  (forall w', previousStation env w = (Ok tt, w') ->
     currentStationIndex (player w') =
       (currentStationIndex (player w) - 1) mod totalStations) /\
  (forall w', times (Z.to_nat totalStations) (nextStation env) w = (Ok tt, w') ->
     currentStationIndex (player w') = currentStationIndex (player w)) /\
  ((isPlaying (player w) = false /\ process (player w) = None) \/
   (forall k, kill_throws env k = false) ->
   (exists w', nextStation env w = (Ok tt, w')) /\
   (exists w', previousStation env w = (Ok tt, w')) /\
   (exists w', times (Z.to_nat totalStations) (nextStation env) w = (Ok tt, w'))).
Proof.
  intros Hi.
  destruct (switch_frame env (fun i => Z.rem (i + 1) totalStations) w) as [N1 N2].
  destruct (switch_frame env (fun i => Z.rem (i - 1 + totalStations) totalStations) w)
    as [P1 P2].
  destruct (times_next env (Z.to_nat totalStations) w Hi) as [T1 T2].
  split; [|split; [|split]].
  - intros w' Hw. rewrite <- rem_next by exact Hi. now apply N1.
  - intros w' Hw. rewrite <- rem_previous by exact Hi. now apply P1.
  - intros w' Hw. rewrite (T1 w' Hw).
    rewrite Z2Nat.id by (unfold totalStations; cbn; lia).
    rewrite <- (Z.mul_1_l totalStations) at 1.
    rewrite Z.mod_add by (unfold totalStations; cbn; lia).
    now apply Z.mod_small.
  - intros [[Hp Hh] | K]; (split; [|split]).
    + destruct (idle_next env w Hp Hh) as (w' & E & _). eauto.
    + now apply idle_previous.
    + now apply idle_times.
    + apply N2, K.
    + apply P2, K.
    + apply T2, K.
Qed.

(** Station 3 selected on a machine with ffplay; five times next. *)
Lemma station_index_wraps_witness :
  0 <= 3 < totalStations /\
  currentStationIndex
    (player (snd (times 5 (nextStation (mkEnv (fun _ => Ok 0) (fun _ => false) (fun _ => false)))
                    (mkWorld (mkPlayer None 3 false (Some "ffplay"%string))
                             (mkOS ∅ ∅ 0 0 0))))) = 3.
Proof.
  assert (Hi : 0 <= currentStationIndex
                      (player (mkWorld (mkPlayer None 3 false (Some "ffplay"%string))
                                       (mkOS ∅ ∅ 0 0 0))) < totalStations)
    by (unfold totalStations; cbn; lia).
  split; [exact Hi|].
  destruct (station_index_wraps
              (mkEnv (fun _ => Ok 0) (fun _ => false) (fun _ => false)) _ Hi)
    as (_ & _ & T1 & T2).
  destruct (T2 (or_intror (fun _ => eq_refl))) as (_ & _ & w' & Hw).
  change (Z.to_nat totalStations) with 5%nat in Hw, T1.
  rewrite Hw. exact (T1 w' Hw).
Defined.

End RadioFacts.

Module SpotifyFacts.
Import Spotify.

(** C6, as the claim has it, fails: the request carries no abort signal,
    so nothing bounds the wait; when no answer arrives the poll neither
    times out nor fails, its promise stays pending and the callback of
    [startPolling] is not run for it. *)
Lemma poll_has_no_timeout :
  req_signal (currentlyPlaying "BQD-token") = None /\
  getCurrentTrack Stalls (construct (Some "BQD-token"%string)) = Pending /\
  poll (fun track calls => track :: calls) Stalls
       (construct (Some "BQD-token"%string), []) =
    (construct (Some "BQD-token"%string), []).
Proof. repeat split. Qed.

(** C6, amended.  The now-playing request is sent without a timeout of its
    own.  Every poll that fails (no token, a connection error, status 204
    or 401, any other non-OK status, a body that is not JSON, a missing
    payload or item, an item without artists or album) returns null and
    leaves the display, and so the cached track, exactly as it was; a poll
    whose answer never arrives stays pending, which also leaves the cache
    alone; the cache changes only when a poll returns a track, and then it
    holds that track. *)
Theorem failed_poll_keeps_cache (x : Exchange) (d : SpotifyDisplay) :
  (forall token, req_signal (currentlyPlaying token) = None) /\
  (forall d', getCurrentTrack x d = Settled (None, d') -> d' = d) /\
  (accessToken d = None \/ accessToken d = Some EmptyString ->
   getCurrentTrack x d = Settled (None, d)) /\
  getCurrentTrack Fails d = Settled (None, d) /\
  (forall r,
     status r = 204 \/ status r = 401 \/ ok r = false \/
     payload r = NotJson \/ payload r = Falsy \/ payload r = NoItem \/
     payload r = BadItem ->
     getCurrentTrack (Responds r) d = Settled (None, d)) /\
  (getCurrentTrack x d = Pending ->
   x = Stalls /\ forall A (callback : option SpotifyTrack -> A -> A) a,
                   poll callback x (d, a) = (d, a)) /\
  (forall t d', getCurrentTrack x d = Settled (Some t, d') ->
     currentTrack d' = Some t /\ accessToken d' = accessToken d /\
     pollInterval d' = pollInterval d) /\
  (forall A (callback : option SpotifyTrack -> A -> A) a,
     currentTrack (fst (poll callback x (d, a))) = currentTrack d \/
     exists t, getCurrentTrack x d = Settled (Some t, fst (poll callback x (d, a))) /\
               currentTrack (fst (poll callback x (d, a))) = Some t).
Proof.
  assert (Hnull : forall d', getCurrentTrack x d = Settled (None, d') -> d' = d).
  { intros d'. unfold getCurrentTrack.
    destruct (accessToken d) as [token|]; [|congruence].
    destruct (decide (token = EmptyString)); [congruence|].
    destruct (fetch _ x) as [|[response|]]; try congruence.
    destruct ((status response =? 204) || (status response =? 401)); [congruence|].
    destruct (negb (ok response)); [congruence|].
    destruct (payload response); congruence. }
  split; [reflexivity|]. split; [exact Hnull|]. split; [|split; [|split]].
  - unfold getCurrentTrack. intros [-> | ->]; [reflexivity|].
    destruct (decide (EmptyString = EmptyString)); congruence.
  - unfold getCurrentTrack. destruct (accessToken d) as [token|]; [|reflexivity].
    destruct (decide (token = EmptyString)); reflexivity.
  - intros r Hr. unfold getCurrentTrack.
    destruct (accessToken d) as [token|]; [|reflexivity].
    destruct (decide (token = EmptyString)); [reflexivity|]. cbn [fetch].
    destruct (Z.eqb_spec (status r) 204); [reflexivity|].
    destruct (Z.eqb_spec (status r) 401); [reflexivity|]. cbn [orb].
    destruct (ok r) eqn:Eok; [|reflexivity]. cbn [negb].
    destruct Hr as [?|[?|[?|[->|[->|[->| ->]]]]]]; congruence.
  - split; [|split].
    + intros Hp. assert (Hx : x = Stalls).
      { unfold getCurrentTrack in Hp.
        destruct (accessToken d) as [token|]; [|congruence].
        destruct (decide (token = EmptyString)); [congruence|].
        destruct x as [r| |]; cbn [fetch] in Hp; [|congruence|reflexivity].
        destruct ((status r =? 204) || (status r =? 401)); [congruence|].
        destruct (negb (ok r)); [congruence|].
        destruct (payload r); congruence. }
      split; [exact Hx|]. intros A callback a. unfold poll. cbn [fst]. now rewrite Hp.
    + intros t d'. unfold getCurrentTrack.
      destruct (accessToken d) as [token|]; [|congruence].
      destruct (decide (token = EmptyString)); [congruence|].
      destruct (fetch _ x) as [|[response|]]; try congruence.
      destruct ((status response =? 204) || (status response =? 401)); [congruence|].
      destruct (negb (ok response)); [congruence|].
      destruct (payload response); try congruence.
      intros H. inversion H; subst. cbn. auto.
    + intros A callback a. unfold poll. cbn [fst snd].
      destruct (getCurrentTrack x d) as [|[[t|] d']] eqn:E; cbn [fst].
      * now left.
      * right. exists t. split; [reflexivity|].
        revert E. unfold getCurrentTrack.
        destruct (accessToken d) as [token|]; [|congruence].
        destruct (decide (token = EmptyString)); [congruence|].
        destruct (fetch _ x) as [|[response|]]; try congruence.
        destruct ((status response =? 204) || (status response =? 401)); [congruence|].
        destruct (negb (ok response)); [congruence|].
        destruct (payload response); try congruence.
        intros H. inversion H; subst. reflexivity.
      * left. now rewrite (Hnull d' eq_refl).
Qed.

End SpotifyFacts.

Module HistoryFacts.
Import History.

Example toISOString_epoch : toISOString 0 = "1970-01-01T00:00:00.000Z"%string.
Proof. reflexivity. Qed.

Example toISOString_leap_day :
  toISOString 1709251199000 = "2024-02-29T23:59:59.000Z"%string.
Proof. vm_compute. reflexivity. Qed.

Example getDateString_before_epoch : getDateString (-1) = "1969-12-31"%string.
Proof. vm_compute. reflexivity. Qed.

Lemma filter_last (P : PomodoroHistoryEntry -> Prop) `{!forall e, Decision (P e)}
    (es : list PomodoroHistoryEntry) (e : PomodoroHistoryEntry) :
  P e -> length (filter P (es ++ [e])) = S (length (filter P es)).
Proof.
  intros He. rewrite filter_app, length_app. cbn.
  rewrite decide_True by exact He. cbn. lia.
Qed.

(** What [addEntry] builds, whether or not the file could be written. *)
Lemma addEntry_history env session minutes w :
  exists entry,
    history (manager (snd (addEntry env session minutes w))) =
      {| entries := entries (history (manager w)) ++ [entry];
         totalPomodoros := if decide (session = work)
                           then totalPomodoros (history (manager w)) + 1
                           else totalPomodoros (history (manager w));
         lastUpdated := toISOString (clock_now env) |} /\
    entry = {| id := generateId env;
               sessionType := session;
               duration := minutes;
               completedAt := toISOString (clock_now env);
               date := getDateString (clock_now env);
               pomodoroNumber :=
                 if decide (session = work)
                 then getPomodoroNumberForToday env (history (manager w)) else 0 |} /\
    (fst (addEntry env session minutes w) = Ok entry /\ write_throws env = false \/
     fst (addEntry env session minutes w) = Throw /\ write_throws env = true).
Proof.
  eexists. unfold addEntry, save. cbn [manager history].
  destruct (write_throws env); cbn; repeat split; auto.
Qed.

(** When both clock reads of a call fall on the same day, a work entry gets
    its position among that day's work entries; other entries get 0. *)
Lemma addEntry_number_same_day env session minutes w :
  getDateString (clock_today env) = getDateString (clock_now env) ->
  let es := entries (history (manager w)) in
  let es' := entries (history (manager (snd (addEntry env session minutes w)))) in
  exists entry,
    es' = es ++ [entry] /\
    (session = work -> Some (pomodoroNumber entry) = dayOrdinal es' (length es)) /\
    (session <> work -> pomodoroNumber entry = 0).
Proof.
  intros Hday es es'.
  destruct (addEntry_history env session minutes w) as (entry & Hh & He & _).
  exists entry. subst es es'. rewrite Hh. cbn [entries].
  split; [reflexivity|]. split.
  - intros ->. unfold dayOrdinal.
    rewrite lookup_app_r, Nat.sub_diag by lia. cbn [lookup list_lookup].
    rewrite take_ge by (rewrite length_app; cbn; lia).
    rewrite filter_last by (rewrite He; cbn; auto).
    rewrite He at 1. cbn [pomodoroNumber]. rewrite decide_True by reflexivity.
    unfold getPomodoroNumberForToday. rewrite Hday.
    rewrite He. cbn [date]. f_equal. lia.
  - intros Hn. rewrite He. cbn. now rewrite decide_False.
Qed.

(** C9 at the input where the code goes wrong.  The history holds one work
    entry of 2024-01-01.  [addEntry('work', 25)] reads the clock at
    23:59:59.999 of that day for the entry, and again at 00:00:00.000 of the
    next day inside [getPomodoroNumberForToday]: the entry is dated
    2024-01-01 and numbered 1, though it is the second work entry of that
    day. *)
Lemma pomodoroNumber_across_midnight :
  let env := {| clock_now := 1704153599999;
                clock_id := 1704153599999;
                random_suffix := "k3j9x2a";
                clock_today := 1704153600000;
                write_throws := false |} in
  let first := {| id := "1704150000000-q0w8e7r";
                  sessionType := work;
                  duration := 25;
                  completedAt := "2024-01-01T23:00:00.000Z";
                  date := "2024-01-01";
                  pomodoroNumber := 1 |} in
  let w := {| manager := {| filePath := "/home/user/.pomodoro/history.json";
                            history := {| entries := [first];
                                          totalPomodoros := 1;
                                          lastUpdated := "2024-01-01T23:00:00.000Z" |} |};
              stored := None |} in
  exists entry w',
    addEntry env work 25 w = (Ok entry, w') /\
    entries (history (manager w')) = [first; entry] /\
    date entry = "2024-01-01"%string /\
    completedAt entry = "2024-01-01T23:59:59.999Z"%string /\
    pomodoroNumber entry = 1 /\
    dayOrdinal (entries (history (manager w'))) 1 = Some 2.
Proof.
  eexists _, _. split; [vm_compute; reflexivity|]. vm_compute. repeat split.
Qed.

(** C10.  [addEntry] appends exactly one entry, of the given session type
    and duration; [totalPomodoros] goes up by exactly 1 when the session is
    'work' and only then, and is unchanged for 'shortBreak' and 'longBreak';
    [lastUpdated] becomes the time of the call.  This holds of the history
    in memory whether or not the file could be written. *)
Theorem addEntry_counts_work env session minutes w :
  let h := history (manager w) in
  let h' := history (manager (snd (addEntry env session minutes w))) in
  (exists entry,
     entries h' = entries h ++ [entry] /\
     sessionType entry = session /\ duration entry = minutes /\
     completedAt entry = toISOString (clock_now env)) /\
  length (entries h') = S (length (entries h)) /\
  (totalPomodoros h' = totalPomodoros h + 1 <-> session = work) /\
  (session = shortBreak \/ session = longBreak -> totalPomodoros h' = totalPomodoros h) /\
  lastUpdated h' = toISOString (clock_now env).
Proof.
  intros h h'. subst h h'.
  destruct (addEntry_history env session minutes w) as (entry & Hh & He & _).
  rewrite Hh. cbn [entries totalPomodoros lastUpdated].
  split; [|split; [|split; [|split]]].
  - exists entry. rewrite He. cbn. auto.
  - rewrite length_app. cbn. lia.
  - destruct (decide (session = work)); split; intros; try lia; congruence.
  - intros [-> | ->]; reflexivity.
  - reflexivity.
Qed.

End HistoryFacts.

Module RadioMore.
Import Radio RadioFacts.

Lemma index_next_range i :
  0 <= i < totalStations -> 0 <= Z.rem (i + 1) totalStations < totalStations.
Proof.
  intros H. rewrite rem_next by exact H.
  apply Z.mod_pos_bound. unfold totalStations. cbn. lia.
Qed.

Lemma index_previous_range i :
  0 <= i < totalStations ->
  0 <= Z.rem (i - 1 + totalStations) totalStations < totalStations.
Proof.
  intros H. rewrite rem_previous by exact H.
  apply Z.mod_pos_bound. unfold totalStations. cbn. lia.
Qed.

Ltac branches :=
  repeat (match goal with
          | |- context [match stationAt ?i with _ => _ end] =>
              destruct (stationAt i) eqn:?
          | |- context [if spawn_throws ?e ?k then _ else _] =>
              destruct (spawn_throws e k) eqn:?
          | |- context [if kill_throws ?e ?k then _ else _] =>
              destruct (kill_throws e k) eqn:?
          end; cbn [player os process currentStationIndex isPlaying playerCommand
                    running liveHandles spawned peak requests fst snd]).

Ltac radio :=
  unfold call, nextStation, previousStation, setStation, toggle; monad.

Lemma call_ready env op w :
  RadioStatus.Ready w -> RadioStatus.Ready (snd (call env op w)).
Proof.
  intros [Hi Hc]. world w. cbn in Hi, Hc.
  pose proof (index_next_range idx Hi) as Hn.
  pose proof (index_previous_range idx Hi) as Hp.
  destruct op; radio;
    try (destruct ((0 <=? index) && (index <? totalStations)) eqn:Eg; monad);
    destruct proc as [hp|], playing, cmd as [c|]; monad; branches;
    constructor; cbn; try congruence; try (intros _; discriminate); auto;
    apply andb_prop in Eg as [E1 E2]; lia.
Qed.

Lemma run_ready env ops : forall w,
  RadioStatus.Ready w -> RadioStatus.Ready (run env ops w).
Proof.
  induction ops as [|op ops IH]; intros w R; [exact R|].
  cbn. apply IH. now apply call_ready.
Qed.

Lemma construct_ready env : RadioStatus.Ready (construct env).
Proof. constructor; cbn; [unfold totalStations; cbn; lia | discriminate]. Qed.

Lemma stationAt_in_range i :
  0 <= i < totalStations ->
  exists station, stationAt i = Some station /\
                  LOFI_STATIONS !! Z.to_nat i = Some station.
Proof.
  intros H. unfold stationAt.
  destruct (Z.ltb_spec i 0); [lia|].
  destruct (lookup_lt_is_Some_2 LOFI_STATIONS (Z.to_nat i)) as [st Hst].
  - unfold totalStations in H. lia.
  - exists st. auto.
Qed.

(** X1.  As long as [setStation] is only called with integers (the
    operations of [Op]), whatever was called before and whatever the
    machine did, the selected index is a valid station index, so
    [getStatus()] does not throw: it reports the flag, the index, the name
    of the station at that index and the number of stations;
    [getCurrentStation()] is that station.  (A number that is not an integer,
    such as 2.5, passes the guard of [setStation] and is selected as given;
    no station is at such an index.  The program uses the player only
    through [MusicManager], which never calls [setStation].) *)
Theorem status_always_available env ops :
  let w := run env ops (construct env) in
  0 <= currentStationIndex (player w) < totalStations /\
  exists station,
    LOFI_STATIONS !! Z.to_nat (currentStationIndex (player w)) = Some station /\
    RadioStatus.getCurrentStation w = Some station /\
    RadioStatus.getStatus w =
      (Ok {| RadioStatus.isPlaying := isPlaying (player w);
             RadioStatus.stationName := name station;
             RadioStatus.stationIndex := currentStationIndex (player w);
             RadioStatus.totalStations := 5 |}, w).
Proof.
  intros w.
  assert (R : RadioStatus.Ready w) by (apply run_ready, construct_ready).
  destruct R as [Hi _]. split; [exact Hi|].
  destruct (stationAt_in_range _ Hi) as (st & Hs & Hl).
  exists st. split; [exact Hl|]. split; [exact Hs|].
  unfold RadioStatus.getStatus. now rewrite Hs.
Qed.

(** X2.  The boolean [toggle()] resolves with is the value of [isPlaying]
    afterwards, in every state and on every machine; [toggle()] rejects only
    when it was playing, and then the player is left as it was. *)
Theorem toggle_reports_state env w :
  (forall b w', toggle env w = (Ok b, w') -> isPlaying (player w') = b) /\
  (forall w', toggle env w = (Throw, w') ->
     isPlaying (player w) = true /\ player w' = player w).
Proof.
  world w. radio.
  destruct proc as [hp|], playing, cmd as [c|]; monad; branches;
    split; intros; match goal with H : (_, _) = (_, _) |- _ => inversion H; subst end;
    cbn; auto.
Qed.

(** X3.  On a machine where spawning and killing never throw, toggling
    twice brings a player reached from the constructor back to the playing
    state it was in. *)
Theorem toggle_twice_restores env ops :
  (forall k, spawn_throws env k = false) ->
  (forall k, kill_throws env k = false) ->
  let w := run env ops (construct env) in
  isPlaying (player (run env [OpToggle; OpToggle] w)) = isPlaying (player w).
Proof.
  intros Hs Hk w.
  assert (R : RadioStatus.Ready w) by (apply run_ready, construct_ready).
  assert (I : Inv w) by (apply run_inv, construct_inv).
  destruct R as [Hi Hc]. destruct (stationAt_in_range _ Hi) as (st & Hst & _).
  destruct I as [I1 I2 I3 I4].
  clearbody w. world w. cbn in *.
  unfold run. cbn [fold_left]. radio.
  destruct playing.
  - destruct proc as [hp|]; [|specialize (I2 eq_refl); discriminate].
    destruct cmd as [c|]; [|now destruct Hc].
    cbn. rewrite Hk. cbn. rewrite Hst. cbn. rewrite Hs. reflexivity.
  - rewrite (I1 eq_refl). destruct cmd as [c|]; [|reflexivity].
    cbn. rewrite Hst. cbn. rewrite Hs. cbn. rewrite Hk. reflexivity.
Qed.

(** A machine with mpv where nothing ever fails; the player was started and
    moved to the next station before the two toggles. *)
Lemma toggle_twice_restores_witness :
  (forall k : nat, spawn_throws (mkEnv (fun _ => Ok 0) (fun _ => false) (fun _ => false)) k
                   = false) /\
  (forall k : nat, kill_throws (mkEnv (fun _ => Ok 0) (fun _ => false) (fun _ => false)) k
                   = false) /\
  isPlaying
    (player (run (mkEnv (fun _ => Ok 0) (fun _ => false) (fun _ => false))
                 [OpToggle; OpToggle]
                 (run (mkEnv (fun _ => Ok 0) (fun _ => false) (fun _ => false))
                      [OpPlay; OpNextStation]
                      (construct (mkEnv (fun _ => Ok 0) (fun _ => false) (fun _ => false))))))
  = true.
Proof.
  split; [reflexivity|]. split; [reflexivity|].
  rewrite (toggle_twice_restores (mkEnv (fun _ => Ok 0) (fun _ => false) (fun _ => false))
             [OpPlay; OpNextStation] (fun _ => eq_refl) (fun _ => eq_refl)).
  vm_compute. reflexivity.
Defined.

(** X4.  Once [stop()] has returned, the player holds no handle and is not
    playing, and a further [stop()] (or [pause()], or the radio part of
    [cleanup()]) asks nothing of the system and changes nothing, on any
    machine. *)
Theorem stop_is_idempotent env w w' :
  stop env w = (Ok tt, w') ->
  process (player w') = None /\ isPlaying (player w') = false /\
  forall env', stop env' w' = (Ok tt, w') /\ pause env' w' = (Ok tt, w') /\
               cleanup env' w' = (Ok tt, w').
Proof.
  world w. unfold pause, cleanup. monad.
  destruct proc as [hp|]; monad; branches; intros H; inversion H; subst;
    cbn; repeat split.
Qed.

(** A stream is playing on a machine with mpv, then it is stopped. *)
Lemma stop_is_idempotent_witness :
  stop (mkEnv (fun _ => Ok 0) (fun _ => false) (fun _ => false))
       (run (mkEnv (fun _ => Ok 0) (fun _ => false) (fun _ => false)) [OpPlay]
            (construct (mkEnv (fun _ => Ok 0) (fun _ => false) (fun _ => false))))
    = (Ok tt, mkWorld (mkPlayer None 0 false (Some "mpv"%string)) (mkOS {[ 0%nat ]} ∅ 1 1 2)) /\
  stop (mkEnv (fun _ => Ok 0) (fun _ => true) (fun _ => true))
       (mkWorld (mkPlayer None 0 false (Some "mpv"%string)) (mkOS {[ 0%nat ]} ∅ 1 1 2))
    = (Ok tt, mkWorld (mkPlayer None 0 false (Some "mpv"%string)) (mkOS {[ 0%nat ]} ∅ 1 1 2)).
Proof.
  assert (H : stop (mkEnv (fun _ => Ok 0) (fun _ => false) (fun _ => false))
                (run (mkEnv (fun _ => Ok 0) (fun _ => false) (fun _ => false)) [OpPlay]
                   (construct (mkEnv (fun _ => Ok 0) (fun _ => false) (fun _ => false))))
              = (Ok tt, mkWorld (mkPlayer None 0 false (Some "mpv"%string)) (mkOS {[ 0%nat ]} ∅ 1 1 2)))
    by (vm_compute; reflexivity).
  split; [exact H|].
  exact (proj1 (proj2 (proj2 (stop_is_idempotent _ _ _ H))
                      (mkEnv (fun _ => Ok 0) (fun _ => true) (fun _ => true)))).
Defined.

Lemma five_indices i :
  0 <= i < totalStations -> i = 0 \/ i = 1 \/ i = 2 \/ i = 3 \/ i = 4.
Proof. unfold totalStations. cbn. lia. Qed.

(** X5.  From a valid station index, [previousStation()] after
    [nextStation()] and [nextStation()] after [previousStation()] both end on
    the index they started from, whenever the calls return. *)
Theorem previous_undoes_next env w w1 w2 :
  0 <= currentStationIndex (player w) < totalStations ->
  (nextStation env w = (Ok tt, w1) -> previousStation env w1 = (Ok tt, w2) ->
   currentStationIndex (player w2) = currentStationIndex (player w)) /\
  (previousStation env w = (Ok tt, w1) -> nextStation env w1 = (Ok tt, w2) ->
   currentStationIndex (player w2) = currentStationIndex (player w)).
Proof.
  intros Hi.
  pose proof (fun v => proj1 (switch_frame env (fun i => Z.rem (i + 1) totalStations) v))
    as N.
  pose proof (fun v => proj1 (switch_frame env
                 (fun i => Z.rem (i - 1 + totalStations) totalStations) v)) as P.
  cbn zeta in N, P.
  change (forall v w', nextStation env v = (Ok tt, w') ->
            currentStationIndex (player w') =
              Z.rem (currentStationIndex (player v) + 1) totalStations) in N.
  change (forall v w', previousStation env v = (Ok tt, w') ->
            currentStationIndex (player w') =
              Z.rem (currentStationIndex (player v) - 1 + totalStations) totalStations) in P.
  split; intros H1 H2.
  - rewrite (P _ _ H2), (N _ _ H1).
    destruct (five_indices _ Hi) as [E|[E|[E|[E|E]]]]; rewrite E; reflexivity.
  - rewrite (N _ _ H2), (P _ _ H1).
    destruct (five_indices _ Hi) as [E|[E|[E|[E|E]]]]; rewrite E; reflexivity.
Qed.

(** Station 4 (the last one), nothing playing: next wraps to 0, previous
    comes back to 4. *)
Lemma previous_undoes_next_witness :
  0 <= 4 < totalStations /\
  currentStationIndex
    (player (run (mkEnv (fun _ => Ok 0) (fun _ => false) (fun _ => false))
                 [OpNextStation; OpPreviousStation]
                 (mkWorld (mkPlayer None 4 false (Some "mpv"%string)) (mkOS ∅ ∅ 0 0 0)))) = 4.
Proof.
  assert (Hi : 0 <= currentStationIndex
                      (player (mkWorld (mkPlayer None 4 false (Some "mpv"%string))
                                       (mkOS ∅ ∅ 0 0 0))) < totalStations)
    by (unfold totalStations; cbn; lia).
  split; [exact Hi|].
  refine (proj1 (previous_undoes_next
                   (mkEnv (fun _ => Ok 0) (fun _ => false) (fun _ => false))
                   _ (mkWorld (mkPlayer None 0 false (Some "mpv"%string)) (mkOS ∅ ∅ 0 0 0))
                   _ Hi) _ _); reflexivity.
Defined.

(** X6.  For a player reached from the constructor: with nothing playing,
    [nextStation()] only moves the index and asks nothing of the system;
    while playing, if the kill and the spawn go through, it ends playing the
    next station on a freshly spawned process whose handle is the only live
    one, the old process having been sent the kill without being waited
    for, so that the processes running are the new one and those that ran
    before; and if the kill goes through but the spawn throws, it returns
    all the same and leaves the player stopped on the next station with no
    live handle. *)
Theorem next_station_restarts env ops :
  let w := run env ops (construct env) in
  let next := (currentStationIndex (player w) + 1) mod totalStations in
  (isPlaying (player w) = false ->
   nextStation env w =
     (Ok tt, {| player := {| process := None;
                             currentStationIndex := next;
                             isPlaying := false;
                             playerCommand := playerCommand (player w) |};
                os := os w |})) /\
  (isPlaying (player w) = true ->
   kill_throws env (requests (os w)) = false ->
   spawn_throws env (S (requests (os w))) = false ->
   exists w',
     nextStation env w = (Ok tt, w') /\
     isPlaying (player w') = true /\
     process (player w') = Some (spawned (os w)) /\
     liveHandles (os w') = {[ spawned (os w) ]} /\
     running (os w') = {[ spawned (os w) ]} ∪ running (os w) /\
     currentStationIndex (player w') = next) /\
  (isPlaying (player w) = true ->
   kill_throws env (requests (os w)) = false ->
   spawn_throws env (S (requests (os w))) = true ->
   exists w',
     nextStation env w = (Ok tt, w') /\
     isPlaying (player w') = false /\
     process (player w') = None /\
     liveHandles (os w') = ∅ /\
     running (os w') = running (os w) /\
     currentStationIndex (player w') = next).
Proof.
  intros w next.
  assert (R : RadioStatus.Ready w) by (apply run_ready, construct_ready).
  assert (I : Inv w) by (apply run_inv, construct_inv).
  destruct R as [Hi Hc].
  assert (Hnext : Z.rem (currentStationIndex (player w) + 1) totalStations = next)
    by (now apply rem_next).
  destruct (stationAt_in_range next) as (st & Hst & _).
  { apply Z.mod_pos_bound. unfold totalStations. cbn. lia. }
  pose proof (inv_no_handle w I) as Hno.
  pose proof (inv_killed w) as Hkl. specialize (fun h => Hkl h I).
  destruct I as [I1 I2 I3 I4 I5].
  clearbody next w. world w. cbn in *.
  split; [|split].
  - intros ->. rewrite (I1 eq_refl). radio. now rewrite Hnext.
  - intros -> Hk Hs.
    destruct proc as [hp|]; [|specialize (I2 eq_refl); discriminate].
    destruct cmd as [c|]; [|now destruct Hc].
    specialize (Hkl hp eq_refl).
    radio. rewrite Hk. monad. rewrite Hnext, Hst. monad. rewrite Hs. monad.
    eexists. split; [reflexivity|]. cbn.
    rewrite Hkl, union_empty_r_L. repeat split.
  - intros -> Hk Hs.
    destruct proc as [hp|]; [|specialize (I2 eq_refl); discriminate].
    destruct cmd as [c|]; [|now destruct Hc].
    specialize (Hkl hp eq_refl).
    radio. rewrite Hk. monad. rewrite Hnext, Hst. monad. rewrite Hs. monad.
    eexists. split; [reflexivity|]. cbn. rewrite Hkl. repeat split.
Qed.

(** A machine with mpv on which nothing fails, the radio playing: the next
    station is started on a new process. *)
Lemma next_station_restarts_witness :
  isPlaying (player (run (mkEnv (fun _ => Ok 0) (fun _ => false) (fun _ => false))
                         [OpPlay]
                         (construct (mkEnv (fun _ => Ok 0) (fun _ => false) (fun _ => false)))))
    = true /\
  exists w',
    nextStation (mkEnv (fun _ => Ok 0) (fun _ => false) (fun _ => false))
                (run (mkEnv (fun _ => Ok 0) (fun _ => false) (fun _ => false))
                     [OpPlay]
                     (construct (mkEnv (fun _ => Ok 0) (fun _ => false) (fun _ => false))))
      = (Ok tt, w') /\
    isPlaying (player w') = true /\ currentStationIndex (player w') = 1.
Proof.
  split; [reflexivity|].
  pose proof (next_station_restarts
                (mkEnv (fun _ => Ok 0) (fun _ => false) (fun _ => false)) [OpPlay]) as H.
  cbv zeta in H. destruct H as (_ & H & _).
  destruct (H eq_refl eq_refl eq_refl) as (w' & Hn & Hp & _ & _ & _ & Hi).
  exists w'. split; [exact Hn|]. split; [exact Hp|]. exact Hi.
Defined.

(** X7.  [setStation(index)] with an index that is negative or not below
    the number of stations does nothing at all; with a valid index, a call
    that returns has selected exactly that index, and with nothing playing
    it changes only the index. *)
Theorem setStation_guard env w index :
  (~ 0 <= index < totalStations -> setStation env index w = (Ok tt, w)) /\
  (0 <= index < totalStations ->
   forall w', setStation env index w = (Ok tt, w') ->
              currentStationIndex (player w') = index) /\
  (0 <= index < totalStations ->
   isPlaying (player w) = false -> process (player w) = None ->
   setStation env index w =
     (Ok tt, {| player := {| process := None;
                             currentStationIndex := index;
                             isPlaying := false;
                             playerCommand := playerCommand (player w) |};
                os := os w |})).
Proof.
  unfold setStation. split; [|split].
  - intros Hn.
    destruct (Z.leb_spec 0 index), (Z.ltb_spec index totalStations); cbn; try reflexivity.
    lia.
  - intros Hi w' Hw.
    destruct (Z.leb_spec 0 index), (Z.ltb_spec index totalStations); try lia.
    cbn [andb] in Hw.
    apply (proj1 (switch_frame env (fun _ => index) w) w' Hw).
  - intros Hi Hp Hh.
    destruct (Z.leb_spec 0 index), (Z.ltb_spec index totalStations); try lia.
    cbn [andb]. world w. cbn in Hp, Hh. subst. reflexivity.
Qed.

(** An index one past the last station, while a stream is playing. *)
Lemma setStation_guard_witness :
  ~ 0 <= 5 < totalStations /\
  setStation (mkEnv (fun _ => Ok 0) (fun _ => false) (fun _ => false)) 5
             (mkWorld (mkPlayer (Some 0%nat) 2 true (Some "mpv"%string))
                      (mkOS {[ 0%nat ]} {[ 0%nat ]} 1 1 1))
  = (Ok tt, mkWorld (mkPlayer (Some 0%nat) 2 true (Some "mpv"%string))
                    (mkOS {[ 0%nat ]} {[ 0%nat ]} 1 1 1)).
Proof.
  assert (Hn : ~ 0 <= 5 < totalStations) by (unfold totalStations; cbn; lia).
  split; [exact Hn|].
  exact (proj1 (setStation_guard _ _ 5) Hn).
Defined.

(** X8.  [detectPlayer] picks the first program of the preference list
    whose [which] probe exits with 0: the result is a program of the list,
    its probe exited with 0 and no probe before it did (a probe that throws
    or exits otherwise is passed over); the result is null exactly when no
    probe exits with 0. *)
Theorem detectPlayer_first_found env (candidates : list string) :
  (forall p, detectPlayer env candidates = Some p ->
     exists before after,
       candidates = before ++ p :: after /\
       which env p = Ok 0 /\
       forall q, q ∈ before -> which env q <> Ok 0) /\
  (detectPlayer env candidates = None <->
   forall q, q ∈ candidates -> which env q <> Ok 0).
Proof.
  induction candidates as [|c rest [IH1 IH2]]; cbn [detectPlayer].
  - split; [discriminate|]. split; [|reflexivity].
    intros _ q Hq. now apply not_elem_of_nil in Hq.
  - destruct (which env c) as [[|pos|neg]|] eqn:Ec.
    + split.
      * intros p Hp. inversion Hp; subst p. exists [], rest.
        repeat split; auto. intros q Hq. now apply not_elem_of_nil in Hq.
      * split; [discriminate|]. intros H. exfalso. apply (H c); [left | exact Ec].
    + split.
      * intros p Hp. destruct (IH1 p Hp) as (b & a & E & Hw & Hb).
        exists (c :: b), a. subst rest. repeat split; auto.
        intros q Hq. apply elem_of_cons in Hq as [->|Hq]; [congruence | auto].
      * rewrite IH2. split.
        -- intros H q Hq. apply elem_of_cons in Hq as [->|Hq]; [congruence | auto].
        -- intros H q Hq. apply H. now right.
    + split.
      * intros p Hp. destruct (IH1 p Hp) as (b & a & E & Hw & Hb).
        exists (c :: b), a. subst rest. repeat split; auto.
        intros q Hq. apply elem_of_cons in Hq as [->|Hq]; [congruence | auto].
      * rewrite IH2. split.
        -- intros H q Hq. apply elem_of_cons in Hq as [->|Hq]; [congruence | auto].
        -- intros H q Hq. apply H. now right.
    + split.
      * intros p Hp. destruct (IH1 p Hp) as (b & a & E & Hw & Hb).
        exists (c :: b), a. subst rest. repeat split; auto.
        intros q Hq. apply elem_of_cons in Hq as [->|Hq]; [congruence | auto].
      * rewrite IH2. split.
        -- intros H q Hq. apply elem_of_cons in Hq as [->|Hq]; [congruence | auto].
        -- intros H q Hq. apply H. now right.
Qed.

End RadioMore.

Module ManagerFacts.
Import Manager.

Lemma length_append (a b : string) :
  String.length (a +:+ b) = (String.length a + String.length b)%nat.
Proof. induction a as [|c a IH]; simpl; [reflexivity | f_equal; exact IH]. Qed.

Lemma length_substring_0 (n : nat) : forall s : string,
  (n <= String.length s)%nat -> String.length (substring 0 n s) = n.
Proof.
  induction n as [|n IH]; intros s H.
  - destruct s; reflexivity.
  - destruct s as [|c s]; cbn in *; [lia|]. rewrite IH; [reflexivity | lia].
Qed.

(** In spotify and off mode the radio player stays as constructed. *)
Lemma call_silent env mode0 op m :
  mode0 <> radio ->
  mode m = mode0 -> radioWorld m = Radio.construct env ->
  mode (snd (call env op m)) = mode0 /\
  radioWorld (snd (call env op m)) = Radio.construct env /\
  fst (call env op m) = Ok tt.
Proof.
  intros Hm Hmode Hw. destruct m as [md w d reg log]. cbn in Hmode, Hw. subst md w.
  destruct mode0; [congruence| |]; destruct op; cbn; auto.
Qed.

Lemma run_silent env mode0 ops : forall m,
  mode0 <> radio ->
  mode m = mode0 -> radioWorld m = Radio.construct env ->
  mode (run env ops m) = mode0 /\ radioWorld (run env ops m) = Radio.construct env.
Proof.
  induction ops as [|op ops IH]; intros m Hm Hmode Hw; [auto|].
  cbn [run fold_left].
  destruct (call_silent env mode0 op m Hm Hmode Hw) as (H1 & H2 & _).
  now apply IH.
Qed.

(** X9.  A manager in spotify or off mode never touches a player process:
    after any operations its radio player is exactly as constructed,
    nothing was spawned or killed, [play()], [resume()] and [toggle()] return
    false, [stop()], [pause()] and [nextStation()] do nothing, and
    [cleanup()] returns. *)
Theorem silent_modes env mode0 token timer ops :
  mode0 <> radio ->
  let m := run env ops (construct env mode0 token timer) in
  mode m = mode0 /\
  radioWorld m = Radio.construct env /\
  Radio.spawned (Radio.os (radioWorld m)) = 0%nat /\
  Radio.requests (Radio.os (radioWorld m)) = 0%nat /\
  play env m = (Ok false, m) /\ resume env m = (Ok false, m) /\
  toggle env m = (Ok false, m) /\
  stop env m = (Ok tt, m) /\ pause env m = (Ok tt, m) /\
  nextStation env m = (Ok tt, m) /\
  fst (cleanup env m) = Ok tt /\
  radioWorld (snd (cleanup env m)) = Radio.construct env.
Proof.
  intros Hm m.
  destruct (run_silent env mode0 ops (construct env mode0 token timer) Hm eq_refl eq_refl)
    as [H1 H2].
  fold m in H1, H2. clearbody m.
  destruct m as [md w d reg log]. cbn in H1, H2. subst md w.
  destruct mode0; [congruence| |]; cbn; repeat split.
Qed.

(** Off mode on a machine with mpv: play, toggle, next station, cleanup. *)
Lemma silent_modes_witness :
  off <> radio /\
  Radio.spawned
    (Radio.os
       (radioWorld
          (run (Radio.mkEnv (fun _ => Ok 0) (fun _ => false) (fun _ => false))
               [OpPlay; OpToggle; OpNextStation; OpCleanup]
               (construct (Radio.mkEnv (fun _ => Ok 0) (fun _ => false) (fun _ => false))
                          off None 0)))) = 0%nat.
Proof.
  assert (H : off <> radio) by discriminate.
  split; [exact H|].
  exact (proj1 (proj2 (proj2
           (silent_modes (Radio.mkEnv (fun _ => Ok 0) (fun _ => false) (fun _ => false))
                         off None 0 [OpPlay; OpToggle; OpNextStation; OpCleanup] H)))).
Defined.

Lemma snd_discard {A} (f : Radio.M A) w : snd (Radio.discard f w) = snd (f w).
Proof. unfold Radio.discard, Radio.bind, Radio.ret. destruct (f w) as [[a|] w']; reflexivity. Qed.

Lemma radioWorld_onRadio {A} (f : Radio.M A) m :
  radioWorld (snd (onRadio f m)) = snd (f (radioWorld m)) /\
  mode (snd (onRadio f m)) = mode m /\
  display (snd (onRadio f m)) = display m.
Proof. unfold onRadio. destruct (f (radioWorld m)) as [r w]. cbn. auto. Qed.

(** What a manager operation does to the radio player: nothing, or what
    the radio operation of the same name does. *)
Lemma call_radioWorld env op m :
  exists rops,
    radioWorld (snd (call env op m)) = Radio.run env rops (radioWorld m) /\
    mode (snd (call env op m)) = mode m /\
    (Spotify.pollInterval (display (snd (call env op m))) = None \/
     display (snd (call env op m)) = display m).
Proof.
  destruct m as [md w d reg log].
  assert (Hplay : snd (Radio.play env w) = Radio.run env [Radio.OpPlay] w)
    by (cbn; now rewrite snd_discard).
  assert (Htoggle : snd (Radio.toggle env w) = Radio.run env [Radio.OpToggle] w)
    by (cbn; now rewrite snd_discard).
  assert (Hstop : snd (Radio.stop env w) = Radio.run env [Radio.OpStop] w)
    by reflexivity.
  assert (Hnext : snd (Radio.nextStation env w) = Radio.run env [Radio.OpNextStation] w)
    by reflexivity.
  assert (Hid : radioWorld (mkManager md w d reg log) =
                Radio.run env [] (radioWorld (mkManager md w d reg log)) /\
                md = md /\ (Spotify.pollInterval d = None \/ d = d)) by (cbn; auto).
  destruct op; unfold call, resume, pause;
    unfold play, stop, toggle, nextStation, cleanup; cbn [mode].
  - destruct md; [|exists []; exact Hid ..].
    unfold onRadio, forget; cbn [radioWorld mode display onStatusChange statuses].
    exists [Radio.OpPlay]. rewrite <- Hplay.
    destruct (Radio.play env w) as [[b|] w']; cbn; auto.
  - destruct md; [|exists []; exact Hid ..].
    unfold onRadio, forget; cbn [radioWorld mode display onStatusChange statuses].
    exists [Radio.OpStop]. rewrite <- Hstop.
    destruct (Radio.stop env w) as [[b|] w']; cbn; auto.
  - destruct md; [|exists []; exact Hid ..].
    unfold onRadio, forget; cbn [radioWorld mode display onStatusChange statuses].
    exists [Radio.OpStop]. rewrite <- Hstop.
    destruct (Radio.stop env w) as [[b|] w']; cbn; auto.
  - destruct md; [|exists []; exact Hid ..].
    unfold onRadio, forget; cbn [radioWorld mode display onStatusChange statuses].
    exists [Radio.OpPlay]. rewrite <- Hplay.
    destruct (Radio.play env w) as [[b|] w']; cbn; auto.
  - destruct md; [|exists []; exact Hid ..].
    unfold onRadio, forget; cbn [radioWorld mode display onStatusChange statuses].
    exists [Radio.OpToggle]. rewrite <- Htoggle.
    destruct (Radio.toggle env w) as [[b|] w']; cbn; auto.
  - destruct md; [|exists []; exact Hid ..].
    unfold onRadio, forget; cbn [radioWorld mode display onStatusChange statuses].
    exists [Radio.OpNextStation]. rewrite <- Hnext.
    destruct (Radio.nextStation env w) as [[b|] w']; cbn; auto.
  - unfold onRadio, forget; cbn [radioWorld mode display onStatusChange statuses].
    exists [Radio.OpStop]. rewrite <- Hstop.
    destruct (Radio.stop env w) as [[b|] w']; cbn; auto.
  - exists []. exact Hid.
Qed.

Lemma run_reachable env mode0 token timer ops :
  let m := run env ops (construct env mode0 token timer) in
  mode m = mode0 /\
  Radio.Inv (radioWorld m) /\ RadioStatus.Ready (radioWorld m) /\
  (Spotify.pollInterval (display m) <> None -> mode0 = spotify).
Proof.
  cbn zeta.
  assert (H : forall m,
            Radio.Inv (radioWorld m) -> RadioStatus.Ready (radioWorld m) ->
            (Spotify.pollInterval (display m) <> None -> mode m = spotify) ->
            mode (run env ops m) = mode m /\
            Radio.Inv (radioWorld (run env ops m)) /\
            RadioStatus.Ready (radioWorld (run env ops m)) /\
            (Spotify.pollInterval (display (run env ops m)) <> None -> mode m = spotify)).
  { induction ops as [|op ops IH]; intros m I R P; [auto|].
    cbn [run fold_left].
    destruct (call_radioWorld env op m) as (rops & Hw & Hmode & Hd).
    destruct (IH (snd (call env op m))) as (H1 & H2 & H3 & H4).
    - rewrite Hw. now apply RadioFacts.run_inv.
    - rewrite Hw. now apply RadioMore.run_ready.
    - rewrite Hmode. destruct Hd as [Hd|Hd]; [congruence | rewrite Hd; exact P].
    - unfold run in *. rewrite H1, Hmode in *. auto. }
  destruct (H (construct env mode0 token timer)) as (H1 & H2 & H3 & H4).
  - apply RadioFacts.construct_inv.
  - apply RadioMore.construct_ready.
  - unfold construct. cbn.
    destruct mode0; cbn; [|intros _; reflexivity|]; intros Hp; now destruct Hp.
  - auto.
Qed.

Lemma stop_again env w :
  Radio.process (Radio.player w) = None -> Radio.isPlaying (Radio.player w) = false ->
  Radio.stop env w = (Ok tt, w).
Proof. RadioFacts.world w. cbn. intros -> ->. reflexivity. Qed.

Lemma cleanup_again env m :
  Radio.process (Radio.player (radioWorld m)) = None ->
  Radio.isPlaying (Radio.player (radioWorld m)) = false ->
  Spotify.pollInterval (display m) = None ->
  cleanup env m = (Ok tt, m).
Proof.
  destruct m as [md w [tok cur poll] reg log]. RadioFacts.world w. cbn.
  intros -> -> ->. reflexivity.
Qed.

Lemma cleanup_cases env m :
  (forall w1, Radio.stop env (radioWorld m) = (Ok tt, w1) ->
     cleanup env m =
       (Ok tt, {| mode := mode m; radioWorld := w1;
                  display := Spotify.stopPolling (display m);
                  onStatusChange := onStatusChange m; statuses := statuses m |})) /\
  (forall w1, Radio.stop env (radioWorld m) = (Throw, w1) ->
     cleanup env m =
       (Throw, {| mode := mode m; radioWorld := w1; display := display m;
                  onStatusChange := onStatusChange m; statuses := statuses m |})).
Proof.
  unfold cleanup, onRadio. split; intros w1 E; rewrite E; reflexivity.
Qed.

(** X10.  For a manager in any mode, after any operations: a polling timer
    is set only in spotify mode; [cleanup()] throws only in radio mode and
    only when the kill throws; whenever it returns, no polling timer is
    set, the radio holds no handle, is not playing and no handle is live
    (every player process that was spawned has been sent a kill), and a
    further [cleanup()] changes nothing on any machine; and even when it
    throws no polling timer is left set. *)
Theorem cleanup_releases env mode0 token timer ops :
  let m := run env ops (construct env mode0 token timer) in
  (Spotify.pollInterval (display m) <> None -> mode0 = spotify) /\
  (forall m', cleanup env m = (Ok tt, m') ->
     Spotify.pollInterval (display m') = None /\
     Radio.process (Radio.player (radioWorld m')) = None /\
     Radio.isPlaying (Radio.player (radioWorld m')) = false /\
     Radio.liveHandles (Radio.os (radioWorld m')) = ∅ /\
     forall env', cleanup env' m' = (Ok tt, m')) /\
  (forall m', cleanup env m = (Throw, m') ->
     mode0 = radio /\
     Radio.kill_throws env (Radio.requests (Radio.os (radioWorld m))) = true /\
     Spotify.pollInterval (display m') = None) /\
  (mode0 <> radio \/
   Radio.kill_throws env (Radio.requests (Radio.os (radioWorld m))) = false ->
   exists m', cleanup env m = (Ok tt, m')).
Proof.
  intros m.
  destruct (run_reachable env mode0 token timer ops) as (Hmode & I & _ & P).
  fold m in Hmode, I, P.
  assert (Hsilent : mode0 <> radio -> radioWorld m = Radio.construct env).
  { intros Hm.
    apply (run_silent env mode0 ops (construct env mode0 token timer) Hm eq_refl eq_refl). }
  clearbody m. destruct m as [md w d reg log]. cbn in Hmode, I, P, Hsilent. subst md.
  split; [exact P|].
  destruct (cleanup_cases env (mkManager mode0 w d reg log)) as [Cok Cthrow].
  cbn [radioWorld mode display onStatusChange statuses] in Cok, Cthrow.
  destruct (RadioFacts.stop_spec env w I)
    as [(w1 & E & I1 & Hp & Hf & _ & _ & Hl & _) | (w1 & E & _ & _ & _ & Hne & K)].
  - rewrite (Cok w1 E). split; [|split; [discriminate | eauto]].
    intros m' Hm'. inversion Hm'; subst m'.
    cbn [display radioWorld Spotify.stopPolling Spotify.pollInterval].
    split; [reflexivity|]. split; [exact Hp|]. split; [exact Hf|]. split; [exact Hl|].
    intros env'. now apply cleanup_again.
  - rewrite (Cthrow w1 E).
    assert (Hr : mode0 = radio).
    { destruct (decide (mode0 = radio)) as [|Hn]; [assumption|].
      rewrite (Hsilent Hn) in Hne. now destruct Hne. }
    split; [discriminate|]. split.
    + intros m' Hm'. inversion Hm'; subst m'. cbn [display radioWorld].
      split; [exact Hr|]. split; [exact K|].
      destruct (Spotify.pollInterval d) eqn:Ed; [|reflexivity].
      assert (mode0 = spotify) by (apply P; discriminate). congruence.
    + intros [Hn | Hk]; [congruence | cbn in Hk; congruence].
Qed.

(** A manager in spotify mode with a token, whose constructor started the
    polling with timer 7, after a status callback was registered. *)
Lemma cleanup_releases_witness :
  spotify <> radio /\
  exists m',
    cleanup (Radio.mkEnv (fun _ => Ok 1) (fun _ => false) (fun _ => false))
            (run (Radio.mkEnv (fun _ => Ok 1) (fun _ => false) (fun _ => false))
                 [OpSetOnStatusChange]
                 (construct (Radio.mkEnv (fun _ => Ok 1) (fun _ => false) (fun _ => false))
                            spotify (Some "BQD-token"%string) 7))
      = (Ok tt, m') /\
    Spotify.pollInterval (display m') = None.
Proof.
  assert (Hn : spotify <> radio) by discriminate.
  split; [exact Hn|].
  pose proof (cleanup_releases
                (Radio.mkEnv (fun _ => Ok 1) (fun _ => false) (fun _ => false))
                spotify (Some "BQD-token"%string) 7 [OpSetOnStatusChange]) as H.
  cbv zeta in H. destruct H as (_ & Hok & _ & Hex).
  destruct (Hex (or_introl Hn)) as (m' & Hm').
  exists m'. split; [exact Hm'|].
  exact (proj1 (Hok m' Hm')).
Defined.

(** X11.  After any operations [getStatusText()] and [isPlaying()] of a
    manager do not throw.  In off mode the text is "Music: Off"; in radio
    mode it is the note sign, a space and the name of the selected station,
    followed by " (paused)" exactly when the radio is not playing, and
    [isPlaying()] is the radio's flag; in spotify mode, as long as no poll
    has returned a track, the text is "Spotify: Not playing" after the note
    sign and [isPlaying()] is false. *)
Theorem status_text_by_mode env mode0 token timer ops :
  let m := run env ops (construct env mode0 token timer) in
  (mode0 = off ->
   getStatusText m = Ok "Music: Off"%string /\ isPlaying m = Ok false) /\
  (mode0 = radio ->
   exists station,
     Radio.LOFI_STATIONS
       !! Z.to_nat (Radio.currentStationIndex (Radio.player (radioWorld m))) = Some station /\
     getStatusText m =
       Ok ("♪" +:+ " " +:+ Radio.name station +:+
           (if Radio.isPlaying (Radio.player (radioWorld m)) then EmptyString
            else " (paused)"))%string /\
     isPlaying m = Ok (Radio.isPlaying (Radio.player (radioWorld m)))) /\
  (mode0 = spotify ->
   Spotify.getCachedTrack (display m) = None ->
   getStatusText m = Ok "♪ Spotify: Not playing"%string /\ isPlaying m = Ok false).
Proof.
  intros m.
  destruct (run_reachable env mode0 token timer ops) as (Hmode & _ & [Hi _] & _).
  fold m in Hmode, Hi. clearbody m.
  destruct m as [md w d reg log]. cbn in Hmode, Hi. subst md.
  unfold getStatusText, isPlaying. cbn [mode radioWorld display].
  split; [|split].
  - intros ->. split; reflexivity.
  - intros ->. destruct (RadioMore.stationAt_in_range _ Hi) as (st & Hs & Hl).
    exists st. split; [exact Hl|].
    unfold RadioStatus.getStatus. rewrite Hs. cbn. split; reflexivity.
  - intros -> Hc. rewrite Hc. split; reflexivity.
Qed.

(** X12.  In spotify mode, with a cached track that is playing, the status
    text is the note sign, the name, " - " and the artist, where a name of
    more than 20 characters is cut to its first 17 followed by "..." and an
    artist of more than 15 characters to its first 12 followed by "...": the
    name part never exceeds 20 characters and the artist part never exceeds
    15.  With a cached track that is not playing the text is
    "Spotify: Not playing" after the note sign. *)
Theorem spotify_status_text m track :
  mode m = spotify ->
  Spotify.getCachedTrack (display m) = Some track ->
  (Spotify.isPlaying track = false ->
   getStatusText m = Ok "♪ Spotify: Not playing"%string) /\
  (Spotify.isPlaying track = true ->
   exists name artist : string,
     getStatusText m = Ok ("♪ " +:+ name +:+ " - " +:+ artist)%string /\
     (String.length name <= 20)%nat /\ (String.length artist <= 15)%nat /\
     ((String.length (Spotify.name track) <= 20)%nat -> name = Spotify.name track) /\
     ((20 < String.length (Spotify.name track))%nat ->
      name = (substring 0 17 (Spotify.name track) +:+ "...")%string) /\
     ((String.length (Spotify.artist track) <= 15)%nat -> artist = Spotify.artist track) /\
     ((15 < String.length (Spotify.artist track))%nat ->
      artist = (substring 0 12 (Spotify.artist track) +:+ "...")%string)).
Proof.
  intros Hm Hc. unfold getStatusText. rewrite Hm, Hc.
  split; [intros ->; reflexivity|]. intros ->.
  eexists _, _. split; [reflexivity|].
  destruct (Nat.ltb_spec 20 (String.length (Spotify.name track))) as [Hn|Hn];
    destruct (Nat.ltb_spec 15 (String.length (Spotify.artist track))) as [Ha|Ha];
    rewrite ?length_append, ?length_substring_0 by lia; cbn [String.length];
    repeat split; intros; try reflexivity; lia.
Qed.

(** A long title by a short artist. *)
Lemma spotify_status_text_witness :
  getStatusText
    (mkManager spotify
       (Radio.construct (Radio.mkEnv (fun _ => Ok 1) (fun _ => false) (fun _ => false)))
       (Spotify.mkDisplay (Some "BQD-token"%string)
          (Some (Spotify.mkTrack "Weightless (Ambient Transmission Vol. 2)" "Marconi Union"
                                 "Weightless" true))
          (Some 7%nat))
       false [])
  = Ok "♪ Weightless (Ambie... - Marconi Union"%string.
Proof.
  destruct (spotify_status_text
              (mkManager spotify
                 (Radio.construct
                    (Radio.mkEnv (fun _ => Ok 1) (fun _ => false) (fun _ => false)))
                 (Spotify.mkDisplay (Some "BQD-token"%string)
                    (Some (Spotify.mkTrack "Weightless (Ambient Transmission Vol. 2)"
                                           "Marconi Union" "Weightless" true))
                    (Some 7%nat))
                 false [])
              (Spotify.mkTrack "Weightless (Ambient Transmission Vol. 2)" "Marconi Union"
                               "Weightless" true)
              eq_refl eq_refl) as [_ H].
  destruct (H eq_refl) as (n & a & Ht & _ & _ & _ & Hn & Ha & _).
  rewrite Ht, (Hn ltac:(cbn; lia)), (Ha ltac:(cbn; lia)). reflexivity.
Defined.

End ManagerFacts.

Module SpotifyMore.
Import Spotify SpotifyPolling.

Lemma getCurrentTrack_returned x d :
  getCurrentTrack x d =
    match getCurrentTrack x {| accessToken := accessToken d;
                               currentTrack := None;
                               pollInterval := None |} with
    | Pending => Pending
    | Settled (None, _) => Settled (None, d)
    | Settled (Some t, _) =>
        Settled (Some t, {| accessToken := accessToken d;
                            currentTrack := Some t;
                            pollInterval := pollInterval d |})
    end.
Proof.
  unfold getCurrentTrack. cbn [accessToken currentTrack pollInterval].
  destruct (accessToken d) as [token|]; [|reflexivity].
  destruct (decide (token = EmptyString)); [reflexivity|].
  destruct (fetch _ x) as [|[response|]]; try reflexivity.
  destruct ((status response =? 204) || (status response =? 401)); [reflexivity|].
  destruct (negb (ok response)); [reflexivity|].
  destruct (payload response); reflexivity.
Qed.

Lemma poll_returned {A} (callback : option SpotifyTrack -> A -> A) x d a :
  poll callback x (d, a) =
    match getCurrentTrack x d with
    | Pending => (d, a)
    | Settled _ =>
        match returned (accessToken d) x with
        | Some t => ({| accessToken := accessToken d;
                        currentTrack := Some t;
                        pollInterval := pollInterval d |}, callback (Some t) a)
        | None => (d, callback None a)
        end
    end.
Proof.
  unfold poll, returned. cbn [fst snd]. rewrite (getCurrentTrack_returned x d).
  destruct (getCurrentTrack x _) as [|[[t|] d0]]; reflexivity.
Qed.

Lemma polls_fold (xs : list Exchange) : forall d reg log,
  let r := fold_left (fun da x => poll Manager.statusCallback x da) xs (d, (reg, log)) in
  let tracks := omap (returned (accessToken d)) xs in
  currentTrack (fst r) =
    match last tracks with Some t => Some t | None => currentTrack d end /\
  accessToken (fst r) = accessToken d /\
  pollInterval (fst r) = pollInterval d /\
  snd r = (reg, if reg
                then log ++ map (fun t => name t +:+ " - " +:+ artist t)%string tracks
                else log).
Proof.
  induction xs as [|x xs IH]; intros d reg log; cbn zeta.
  - cbn. repeat split. destruct reg; [now rewrite app_nil_r | reflexivity].
  - cbn [fold_left]. rewrite poll_returned.
    change (omap (returned (accessToken d)) (x :: xs))
      with (match returned (accessToken d) x with
            | Some y => y :: omap (returned (accessToken d)) xs
            | None => omap (returned (accessToken d)) xs
            end).
    destruct (getCurrentTrack x d) as [|res] eqn:E.
    + assert (Hr : returned (accessToken d) x = None).
      { unfold returned. rewrite (getCurrentTrack_returned x d) in E.
        destruct (getCurrentTrack x _) as [|[[t|] d0]]; [reflexivity|discriminate..]. }
      rewrite Hr. apply IH.
    + destruct (returned (accessToken d) x) as [t|] eqn:Hr.
      * specialize (IH {| accessToken := accessToken d; currentTrack := Some t;
                          pollInterval := pollInterval d |} reg
                       (if reg then log ++ [(name t +:+ " - " +:+ artist t)%string] else log)).
        cbn zeta in IH. cbn [accessToken currentTrack pollInterval] in IH.
        destruct IH as (I1 & I2 & I3 & I4).
        assert (Hcb : Manager.statusCallback (Some t) (reg, log) =
                      (reg, if reg then log ++ [(name t +:+ " - " +:+ artist t)%string]
                            else log)).
        { unfold Manager.statusCallback. cbn. destruct reg; reflexivity. }
        rewrite Hcb. rewrite I1, I2, I3, I4. cbn [map]. rewrite last_cons.
        repeat split.
        -- destruct (last (omap _ xs)); reflexivity.
        -- destruct reg; [|reflexivity]. now rewrite <- app_assoc.
      * apply IH.
Qed.

(** X13.  The polls of [startPolling] do not wait for one another, so
    their answers may arrive in any order.  After [startPolling] and any
    arrivals, the cached track is the track of the answer that arrived last
    among those that brought a track, whichever poll it belongs to, or still
    the earlier cached value if none did; the token is untouched and the
    timer recorded; and the status callback of the manager, when one is
    registered, has been called once per answer that brought a track, in the
    order of arrival, with "name - artist", and never for a poll that failed
    or has not been answered. *)
Theorem cache_is_last_arrival timer fired arrival d reg log :
  let r := Spotify.startPolling Manager.statusCallback timer fired arrival
             (d, (reg, log)) in
  let tracks := omap (returned (accessToken d)) (settling fired arrival) in
  currentTrack (fst r) =
    match last tracks with Some t => Some t | None => currentTrack d end /\
  accessToken (fst r) = accessToken d /\
  pollInterval (fst r) = Some timer /\
  snd r = (reg, if reg
                then log ++ map (fun t => name t +:+ " - " +:+ artist t)%string tracks
                else log).
Proof.
  unfold Spotify.startPolling.
  cbn [fst snd Spotify.stopPolling accessToken currentTrack pollInterval].
  apply (polls_fold (settling fired arrival)
           {| accessToken := accessToken d; currentTrack := currentTrack d;
              pollInterval := Some timer |} reg log).
Qed.

(** Four polls answered in the order they were started: one brings a
    track, one fails, one is answered with 204 and one is never answered. *)
Example three_polls :
  let song := Item "Snowman" ["WYS"; "Sweet Medicine"]%string "Snowman" true in
  Spotify.startPolling Manager.statusCallback 3
    [Responds (mkResponse 200 song); Fails; Responds (mkResponse 204 Falsy); Stalls]
    [0; 1; 2; 3]%nat
    (construct (Some "BQD-token"%string), (true, []))
  = ({| accessToken := Some "BQD-token"%string;
        currentTrack := Some (mkTrack "Snowman" "WYS, Sweet Medicine" "Snowman" true);
        pollInterval := Some 3%nat |},
     (true, ["Snowman - WYS, Sweet Medicine"%string])).
Proof. reflexivity. Qed.

(** Two polls of which the second is answered before the first: the late
    answer of the first poll overwrites the cache, and the callbacks come
    in the order of arrival. *)
Example late_answer_overwrites :
  let first := Item "First" ["A"]%string "One" true in
  let second := Item "Second" ["B"]%string "Two" true in
  Spotify.startPolling Manager.statusCallback 3
    [Responds (mkResponse 200 first); Responds (mkResponse 200 second)]
    [1; 0]%nat
    (construct (Some "BQD-token"%string), (true, []))
  = ({| accessToken := Some "BQD-token"%string;
        currentTrack := Some (mkTrack "First" "A" "One" true);
        pollInterval := Some 3%nat |},
     (true, ["Second - B"; "First - A"]%string)).
Proof. reflexivity. Qed.

Lemma timers_inv ops : forall t,
  (forall id, id ∈ liveTimers t -> pollInterval (shown t) = Some id) ->
  (forall id, id ∈ liveTimers t -> (id < timersSet t)%nat) ->
  let t' := runTimers ops t in
  (forall id, id ∈ liveTimers t' -> pollInterval (shown t') = Some id) /\
  (forall id, id ∈ liveTimers t' -> (id < timersSet t')%nat).
Proof.
  induction ops as [|op ops IH]; intros t H1 H2; cbn zeta; [auto|].
  cbn [runTimers fold_left].
  assert (Hstop : (forall id, id ∈ liveTimers (SpotifyPolling.stopPolling t) -> False) /\
                  timersSet (SpotifyPolling.stopPolling t) = timersSet t /\
                  pollInterval (shown (SpotifyPolling.stopPolling t)) = None).
  { unfold SpotifyPolling.stopPolling.
    destruct (pollInterval (shown t)) as [id0|] eqn:E; cbn.
    - repeat split. intros id Hin. apply elem_of_difference in Hin as [Hin Hne].
      apply H1 in Hin. apply Hne, elem_of_singleton. congruence.
    - repeat split; auto. intros id Hin. apply H1 in Hin. congruence. }
  destruct Hstop as (S1 & S2 & S3).
  apply IH; destruct op.
  - unfold SpotifyPolling.startPolling. cbn. intros id Hin.
    apply elem_of_union in Hin as [Hin|Hin]; [|now apply S1 in Hin].
    apply elem_of_singleton in Hin. now subst.
  - intros id Hin. now apply S1 in Hin.
  - unfold SpotifyPolling.startPolling. cbn. intros id Hin.
    apply elem_of_union in Hin as [Hin|Hin]; [|now apply S1 in Hin].
    apply elem_of_singleton in Hin. lia.
  - intros id Hin. now apply S1 in Hin.
Qed.

(** X14.  However [startPolling] and [stopPolling] are called one after the
    other, at most one interval timer is set at any time and it is the one
    recorded in [pollInterval]; after [stopPolling] none is set; and
    [startPolling] always ends with exactly one, a new one. *)
Theorem one_polling_timer token ops :
  let t := runTimers ops (constructTimed token) in
  (size (liveTimers t) <= 1)%nat /\
  (forall id, id ∈ liveTimers t -> pollInterval (shown t) = Some id) /\
  liveTimers (SpotifyPolling.stopPolling t) = ∅ /\
  pollInterval (shown (SpotifyPolling.stopPolling t)) = None /\
  liveTimers (SpotifyPolling.startPolling t) = {[ timersSet t ]} /\
  pollInterval (shown (SpotifyPolling.startPolling t)) = Some (timersSet t) /\
  timersSet t ∉ liveTimers t.
Proof.
  intros t.
  destruct (timers_inv ops (constructTimed token)) as [H1 H2].
  { intros id Hin. now apply not_elem_of_empty in Hin. }
  { intros id Hin. now apply not_elem_of_empty in Hin. }
  fold t in H1, H2. clearbody t.
  assert (Hstop : liveTimers (SpotifyPolling.stopPolling t) = ∅ /\
                  timersSet (SpotifyPolling.stopPolling t) = timersSet t /\
                  pollInterval (shown (SpotifyPolling.stopPolling t)) = None).
  { unfold SpotifyPolling.stopPolling.
    destruct (pollInterval (shown t)) as [id0|] eqn:E; cbn.
    - repeat split. apply set_eq. intros id. split.
      + intros Hin. apply elem_of_difference in Hin as [Hin Hne].
        apply H1 in Hin. exfalso. apply Hne, elem_of_singleton. congruence.
      + intros Hin. now apply not_elem_of_empty in Hin.
    - repeat split; auto. apply set_eq. intros id. split.
      + intros Hin. apply H1 in Hin. congruence.
      + intros Hin. now apply not_elem_of_empty in Hin. }
  destruct Hstop as (S1 & S2 & S3).
  split; [|split; [exact H1|split; [exact S1|split; [exact S3|split; [|split]]]]].
  - destruct (pollInterval (shown t)) as [id0|] eqn:E.
    + assert (Hsub : liveTimers t ⊆ {[ id0 ]}).
      { intros id Hin. apply H1 in Hin. apply elem_of_singleton. congruence. }
      apply subseteq_size in Hsub. rewrite size_singleton in Hsub. exact Hsub.
    + assert (He : liveTimers t = ∅).
      { apply set_eq. intros id. split.
        - intros Hin. apply H1 in Hin. congruence.
        - intros Hin. now apply not_elem_of_empty in Hin. }
      rewrite He, size_empty. lia.
  - unfold SpotifyPolling.startPolling. cbn [liveTimers]. rewrite S1, S2.
    apply union_empty_r_L.
  - unfold SpotifyPolling.startPolling. cbn. now rewrite S2.
  - intros Hin. apply H2 in Hin. lia.
Qed.

End SpotifyMore.

Module HistoryMore.
Import History HistoryRuns.

Lemma addEntry_step env session minutes w :
  let w' := snd (addEntry env session minutes w) in
  let entry := {| id := generateId env;
                  sessionType := session;
                  duration := minutes;
                  completedAt := toISOString (clock_now env);
                  date := getDateString (clock_now env);
                  pomodoroNumber :=
                    if decide (session = work)
                    then getPomodoroNumberForToday env (history (manager w)) else 0 |} in
  history (manager w') =
    {| entries := entries (history (manager w)) ++ [entry];
       totalPomodoros := if decide (session = work)
                         then totalPomodoros (history (manager w)) + 1
                         else totalPomodoros (history (manager w));
       lastUpdated := toISOString (clock_now env) |} /\
  filePath (manager w') = filePath (manager w) /\
  stored w' = (if write_throws env then stored w else Some (history (manager w'))) /\
  fst (addEntry env session minutes w) = (if write_throws env then Throw else Ok entry).
Proof.
  unfold addEntry, save. cbn [manager history filePath stored].
  destruct (write_throws env); cbn [fst snd manager history filePath stored];
    repeat split.
Qed.

Lemma workCount_app es e :
  workCount (es ++ [e]) =
    if decide (sessionType e = work) then workCount es + 1 else workCount es.
Proof.
  unfold workCount. rewrite filter_app, length_app. cbn.
  destruct (decide (sessionType e = work)); cbn; lia.
Qed.

(** X15.  However many entries are added, of whatever kinds and whether or
    not the writes succeed, [totalPomodoros] grows by exactly the number of
    work entries added and the list grows by one entry per call; so a
    history that starts empty (no file, an empty file or an unreadable one)
    always has [totalPomodoros] equal to the number of its work entries. *)
Theorem totalPomodoros_counts_work_entries calls :
  (forall w,
     let h := history (manager w) in
     let h' := history (manager (addEntries calls w)) in
     totalPomodoros h' - workCount (entries h') = totalPomodoros h - workCount (entries h) /\
     length (entries h') = (length (entries h) + length calls)%nat /\
     filePath (manager (addEntries calls w)) = filePath (manager w)) /\
  (forall home path f now,
     (forall h, f <> Document h) ->
     let h' := history (manager (addEntries calls (construct home path f now))) in
     totalPomodoros h' = workCount (entries h') /\
     length (entries h') = length calls).
Proof.
  assert (H : forall w,
            totalPomodoros (history (manager (addEntries calls w)))
              - workCount (entries (history (manager (addEntries calls w))))
            = totalPomodoros (history (manager w)) - workCount (entries (history (manager w)))
            /\ length (entries (history (manager (addEntries calls w))))
               = (length (entries (history (manager w))) + length calls)%nat
            /\ filePath (manager (addEntries calls w)) = filePath (manager w)).
  { induction calls as [|c calls IH]; intros w; [cbn; repeat split; lia|].
    cbn [addEntries fold_left].
    destruct (addEntry_step (call_env c) (call_session c) (call_minutes c) w)
      as (Hh & Hp & _).
    destruct (IH (snd (addEntry (call_env c) (call_session c) (call_minutes c) w)))
      as (I1 & I2 & I3).
    unfold addEntries in *. rewrite I1, I2, I3, Hh, Hp.
    cbn [entries totalPomodoros length]. rewrite workCount_app, length_app.
    cbn [sessionType length].
    destruct (decide (call_session c = work)); repeat split; lia. }
  split; [exact H|].
  intros home path f now Hf h'. subst h'.
  destruct (H (construct home path f now)) as (H1 & H2 & _).
  assert (He : history (manager (construct home path f now)) = createEmpty now).
  { destruct f; try reflexivity. now destruct (Hf h). }
  rewrite He in H1, H2. unfold createEmpty in H1, H2.
  cbn [entries totalPomodoros length] in H1, H2.
  change (workCount []) with 0 in H1. split; [lia | exact H2].
Qed.

(** No file yet; two work sessions and a short break are recorded, the
    second write failing. *)
Lemma totalPomodoros_counts_work_entries_witness :
  (forall h, Missing <> Document h) /\
  totalPomodoros
    (history (manager
       (addEntries
          [mkCall (mkEnv 1704103200000 1704103200001 "k3j9x2a" 1704103200002 false) work 25;
           mkCall (mkEnv 1704105000000 1704105000001 "p0o9i8u" 1704105000002 true)
                  shortBreak 5;
           mkCall (mkEnv 1704106800000 1704106800001 "z1x2c3v" 1704106800002 false) work 25]
          (construct "/home/user" None Missing 1704100000000)))) = 2.
Proof.
  assert (Hf : forall h, Missing <> Document h) by discriminate.
  split; [exact Hf|].
  rewrite (proj1 (proj2 (totalPomodoros_counts_work_entries _) "/home/user"%string None
                        Missing 1704100000000 Hf)).
  vm_compute. reflexivity.
Defined.

(** X16.  [getTodayStats()] after [addEntry]: a work entry whose date is the
    day asked about raises the count of pomodoros by one and the total
    minutes by its duration; a break, or a work entry dated another day,
    changes neither. *)
Theorem todayStats_after_addEntry env session minutes w today :
  let h := history (manager w) in
  let h' := history (manager (snd (addEntry env session minutes w))) in
  (session = work ->
   getDateString (clock_now env) = getDateString today ->
   getTodayStats today h' =
     (fst (getTodayStats today h) + 1, snd (getTodayStats today h) + minutes)) /\
  (session <> work \/ getDateString (clock_now env) <> getDateString today ->
   getTodayStats today h' = getTodayStats today h).
Proof.
  intros h h'. subst h h'.
  destruct (addEntry_step env session minutes w) as (Hh & _).
  rewrite Hh. unfold getTodayStats. cbn [entries].
  rewrite filter_app. cbn [filter list_filter].
  split.
  - intros -> Hd. cbn [date sessionType].
    rewrite decide_True by auto.
    rewrite length_app, fold_left_app. cbn [length fold_left duration fst snd].
    f_equal. lia.
  - intros Hn. cbn [date sessionType].
    rewrite decide_False by (intros [H1 H2]; destruct Hn as [Hn|Hn]; auto).
    now rewrite app_nil_r.
Qed.

(** A 50-minute work session recorded at 10:00 on 2024-01-01, asked about
    at 18:00 the same day. *)
Lemma todayStats_after_addEntry_witness :
  getDateString 1704103200000 = getDateString 1704132000000 /\
  getTodayStats 1704132000000
    (history (manager (snd (addEntry
       (mkEnv 1704103200000 1704103200001 "k3j9x2a" 1704103200002 false) work 50
       (construct "/home/user" None Missing 1704100000000))))) = (1, 50).
Proof.
  assert (Hd : getDateString 1704103200000 = getDateString 1704132000000)
    by (vm_compute; reflexivity).
  split; [exact Hd|].
  rewrite (proj1 (todayStats_after_addEntry
                    (mkEnv 1704103200000 1704103200001 "k3j9x2a" 1704103200002 false)
                    work 50 (construct "/home/user" None Missing 1704100000000)
                    1704132000000) eq_refl Hd).
  reflexivity.
Defined.

Lemma addEntries_snoc calls c w :
  addEntries (calls ++ [c]) w =
    snd (addEntry (call_env c) (call_session c) (call_minutes c) (addEntries calls w)).
Proof. unfold addEntries. now rewrite fold_left_app. Qed.

(** X17.  [addEntry] resolves exactly when the write does not throw, and
    then the file holds the whole history in memory, so that a manager
    constructed on that file afterwards starts from the same history; when
    the write throws, [addEntry] rejects, the file is left as it was, yet
    the entry is already in the history in memory.  After several calls of
    which the last one resolved, the file holds all entries, also those of
    earlier calls whose write failed. *)
Theorem file_follows_memory :
  (forall env session minutes w,
     let r := addEntry env session minutes w in
     (write_throws env = false ->
      (exists entry, fst r = Ok entry) /\
      stored (snd r) = Some (history (manager (snd r))) /\
      forall home now,
        history (manager (construct home (Some (filePath (manager (snd r))))
                                    (Document (history (manager (snd r)))) now))
        = history (manager (snd r))) /\
     (write_throws env = true ->
      fst r = Throw /\ stored (snd r) = stored w /\
      length (entries (history (manager (snd r)))) =
        S (length (entries (history (manager w)))))) /\
  (forall calls c w,
     write_throws (call_env c) = false ->
     stored (addEntries (calls ++ [c]) w) =
       Some (history (manager (addEntries (calls ++ [c]) w)))).
Proof.
  split.
  - intros env session minutes w r. subst r.
    destruct (addEntry_step env session minutes w) as (Hh & Hp & Hs & Hr).
    split; intros Hw; rewrite Hw in Hs, Hr.
    + split; [eauto|]. split; [exact Hs|]. reflexivity.
    + split; [exact Hr|]. split; [exact Hs|].
      rewrite Hh. cbn [entries]. rewrite length_app. cbn. lia.
  - intros calls c w Hw. rewrite addEntries_snoc.
    destruct (addEntry_step (call_env c) (call_session c) (call_minutes c)
                            (addEntries calls w)) as (_ & _ & Hs & _).
    now rewrite Hw in Hs.
Qed.

End HistoryMore.

Module TasksFacts.
Import Tasks.

Section Sorting.
Context {A : Type} (compare : A -> A -> Z).
Let before (x y : A) : Prop := compare x y <= 0.
Hypothesis compare_total : forall x y, 0 < compare x y -> compare y x <= 0.
Hypothesis compare_trans : forall x y z, compare x y <= 0 -> compare y z <= 0 -> compare x z <= 0.

Lemma insert_perm x l : insert compare x l ≡ₚ x :: l.
Proof.
  induction l as [|y l IH]; cbn; [reflexivity|].
  destruct (compare x y <=? 0); [reflexivity|].
  rewrite IH. apply Permutation_swap.
Qed.

Lemma sort_perm l : sort compare l ≡ₚ l.
Proof.
  induction l as [|x l IH]; cbn; [reflexivity|].
  rewrite insert_perm. now constructor.
Qed.

Lemma insert_sorted x l :
  StronglySorted before l -> StronglySorted before (insert compare x l).
Proof.
  induction 1 as [|y l Hs IH Hy]; cbn.
  - repeat constructor.
  - destruct (Z.leb_spec (compare x y) 0) as [Hle|Hgt].
    + constructor; [now constructor|]. constructor; [exact Hle|].
      eapply Forall_impl; [exact Hy|]. intros z Hz. now apply (compare_trans x y z).
    + constructor; [exact IH|].
      rewrite insert_perm. constructor; [now apply compare_total | exact Hy].
Qed.

Lemma sort_sorted l : StronglySorted before (sort compare l).
Proof.
  induction l as [|x l IH]; cbn; [constructor | now apply insert_sorted].
Qed.

End Sorting.

Lemma sorted_mono {A} (R S : A -> A -> Prop) (l : list A) :
  (forall x y, R x y -> S x y) -> StronglySorted R l -> StronglySorted S l.
Proof.
  intros H. induction 1 as [|x l Hs IH Hx]; constructor; [exact IH|].
  eapply Forall_impl; [exact Hx|]. intros y. apply H.
Qed.

Lemma filter_partition (l : list Task) :
  filter (fun t => completed t = false) l ++ filter (fun t => completed t = true) l ≡ₚ l.
Proof.
  induction l as [|t l IH]; [reflexivity|].
  rewrite !filter_cons. destruct (completed t) eqn:E.
  - rewrite decide_False by discriminate. rewrite decide_True by reflexivity.
    rewrite <- Permutation_middle. now constructor.
  - rewrite decide_True by reflexivity. rewrite decide_False by discriminate.
    cbn. now constructor.
Qed.

(** X18.  [getPending()] and [getCompleted()] split the task list: taken
    together they hold exactly the tasks of the list, each once; the first
    holds the tasks that are not completed, oldest first, the second the
    completed ones, newest first. *)
Theorem pending_and_completed_partition w :
  getPending w ++ getCompleted w ≡ₚ getTasks w /\
  Forall (fun t => completed t = false) (getPending w) /\
  Forall (fun t => completed t = true) (getCompleted w) /\
  StronglySorted (fun a b => createdAt a <= createdAt b) (getPending w) /\
  StronglySorted (fun a b => createdAt b <= createdAt a) (getCompleted w) /\
  (length (getPending w) + length (getCompleted w))%nat = length (getTasks w).
Proof.
  unfold getPending, getCompleted, getTasks.
  assert (Hp : getPending w ++ getCompleted w ≡ₚ tasks (manager w)).
  { unfold getPending, getCompleted. rewrite !sort_perm. apply filter_partition. }
  split; [exact Hp|]. split; [|split; [|split; [|split]]].
  - rewrite sort_perm. apply Forall_forall. intros t Ht.
    now apply list_elem_of_filter in Ht as [Ht _].
  - rewrite sort_perm. apply Forall_forall. intros t Ht.
    now apply list_elem_of_filter in Ht as [Ht _].
  - eapply sorted_mono;
      [|apply (sort_sorted (fun a b => createdAt a - createdAt b)); intros; lia].
    cbn. intros a b. lia.
  - eapply sorted_mono;
      [|apply (sort_sorted (fun a b => createdAt b - createdAt a)); intros; lia].
    cbn. intros a b. lia.
  - rewrite <- length_app. now apply Permutation_length.
Qed.

Lemma toggleFirst_spec target : forall l,
  match toggleFirst target l with
  | Some l' =>
      exists l1 t l2,
        l = l1 ++ t :: l2 /\ id t = target /\
        (forall u, u ∈ l1 -> id u <> target) /\
        l' = l1 ++ flipped t :: l2
  | None => forall u, u ∈ l -> id u <> target
  end.
Proof.
  induction l as [|t l IH]; cbn [toggleFirst].
  - intros u Hu. now apply not_elem_of_nil in Hu.
  - destruct (decide (id t = target)) as [E|E].
    + exists [], t, l. repeat split; auto. intros u Hu. now apply not_elem_of_nil in Hu.
    + destruct (toggleFirst target l) as [l'|].
      * destruct IH as (l1 & t' & l2 & -> & Ht & Hl1 & ->).
        exists (t :: l1), t', l2. repeat split; auto.
        intros u Hu. apply elem_of_cons in Hu as [->|Hu]; auto.
      * intros u Hu. apply elem_of_cons in Hu as [->|Hu]; auto.
Qed.

Lemma flipped_flipped t : flipped (flipped t) = t.
Proof. destruct t as [i x c k]. now destruct c. Qed.

Lemma toggleFirst_twice target : forall l l',
  toggleFirst target l = Some l' -> toggleFirst target l' = Some l.
Proof.
  induction l as [|t l IH]; intros l' H; cbn [toggleFirst] in H; [discriminate|].
  destruct (decide (id t = target)) as [E|E].
  - inversion H; subst l'. cbn [toggleFirst]. change (id (flipped t)) with (id t).
    rewrite decide_True by exact E. now rewrite flipped_flipped.
  - destruct (toggleFirst target l) as [l0|] eqn:E0; [|discriminate].
    inversion H; subst l'. cbn [toggleFirst].
    rewrite decide_False by exact E. now rewrite (IH l0 eq_refl).
Qed.

Lemma tasks_save env w : tasks (manager (save env w)) = tasks (manager w).
Proof. unfold save. now destruct (write_throws env). Qed.

(** X19.  [toggle(id)] flips [completed] on the first task with that id
    and on no other, also when several tasks share the id; when no task has
    the id nothing changes and nothing is written; and toggling the same id
    twice gives back the task list as it was. *)
Theorem toggle_flips_first_match env target w :
  ((forall u, u ∈ getTasks w -> id u <> target) -> toggle env target w = w) /\
  (forall t, t ∈ getTasks w -> id t = target ->
     exists l1 t1 l2,
       getTasks w = l1 ++ t1 :: l2 /\ id t1 = target /\
       (forall u, u ∈ l1 -> id u <> target) /\
       getTasks (toggle env target w) =
         l1 ++ {| id := id t1; text := text t1; completed := negb (completed t1);
                  createdAt := createdAt t1 |} :: l2) /\
  (forall env', getTasks (toggle env' target (toggle env target w)) = getTasks w).
Proof.
  unfold getTasks, toggle.
  pose proof (toggleFirst_spec target (tasks (manager w))) as Hs.
  destruct (toggleFirst target (tasks (manager w))) as [l'|] eqn:E.
  - destruct Hs as (l1 & t1 & l2 & Hl & Ht & Hl1 & Hl').
    split; [|split].
    + intros Hn. exfalso. apply (Hn t1); [|exact Ht].
      rewrite Hl. apply elem_of_app. right. left.
    + intros t _ _. exists l1, t1, l2. rewrite tasks_save. cbn. auto.
    + intros env'. rewrite tasks_save. cbn [manager tasks].
      rewrite (toggleFirst_twice _ _ _ E). now rewrite tasks_save.
  - split; [reflexivity|]. split.
    + intros t Hin Ht. now destruct (Hs t Hin).
    + intros env'. now rewrite E.
Qed.

(** X20.  After [delete(id)] no task has that id, the tasks with other ids
    are all still there in their order, and deleting an id again, or an id
    no task has, changes nothing in the list. *)
Theorem delete_removes_every_match env target w :
  let l' := getTasks (delete env target w) in
  l' = filter (fun t => id t <> target) (getTasks w) /\
  (forall t, t ∈ l' -> id t <> target) /\
  (forall t, id t <> target -> t ∈ getTasks w -> t ∈ l') /\
  sublist l' (getTasks w) /\
  (forall env', getTasks (delete env' target (delete env target w)) = l') /\
  ((forall t, t ∈ getTasks w -> id t <> target) -> l' = getTasks w).
Proof.
  unfold getTasks, delete. cbn zeta. rewrite !tasks_save. cbn [manager tasks].
  split; [reflexivity|]. split; [|split; [|split; [|split]]].
  - intros t Ht. now apply list_elem_of_filter in Ht as [Ht _].
  - intros t Hn Hin. apply list_elem_of_filter. auto.
  - apply sublist_filter.
  - intros env'. rewrite !tasks_save. cbn [manager tasks].
    apply list_filter_filter_l. auto.
  - intros Hn. induction (tasks (manager w)) as [|t l IH]; [reflexivity|].
    rewrite filter_cons_True by (apply Hn; left).
    f_equal. apply IH. intros u Hu. apply Hn. now right.
Qed.

(** X21.  [add(text)] puts one new task at the end of the list: its text is
    the trimmed input, it is not completed, it carries the time of the call,
    and it shows up in [getPending()]; every task that was there stays as
    it was.  Deleting the id of the new task right away gives back the old
    list provided no older task had that id. *)
Theorem add_appends_pending env trim input w :
  let task := fst (add env trim input w) in
  let w' := snd (add env trim input w) in
  getTasks w' = getTasks w ++ [task] /\
  text task = trim input /\ completed task = false /\
  createdAt task = clock_created env /\
  task ∈ getPending w' /\
  (forall env',
     (forall t, t ∈ getTasks w -> id t <> id task) ->
     getTasks (delete env' (id task) w') = getTasks w).
Proof.
  unfold add, getTasks, getPending. cbn [fst snd]. rewrite tasks_save. cbn [manager tasks].
  split; [reflexivity|]. split; [reflexivity|]. split; [reflexivity|].
  split; [reflexivity|]. split.
  - rewrite sort_perm. apply list_elem_of_filter. split; [reflexivity|].
    apply elem_of_app. right. left.
  - intros env' Hn. unfold delete. rewrite !tasks_save. cbn [manager tasks].
    rewrite filter_app. rewrite filter_cons_False, filter_nil by (cbn; auto).
    rewrite app_nil_r.
    induction (tasks (manager w)) as [|t l IH]; [reflexivity|].
    rewrite filter_cons_True by (apply Hn; left).
    f_equal. apply IH. intros u Hu. apply Hn. now right.
Qed.

Lemma selected_count (sel : Z) (l : list Task) : forall k : nat,
  length (filter (fun r : Task * bool => snd r = true)
                 (imap (fun i task => (task, Z.of_nat (k + i) =? sel)) l))
  = if (Z.of_nat k <=? sel) && (sel <? Z.of_nat (k + length l)) then 1%nat else 0%nat.
Proof.
  induction l as [|t l IH]; intros k.
  - cbn. destruct (Z.leb_spec (Z.of_nat k) sel), (Z.ltb_spec sel (Z.of_nat (k + 0)));
      cbn; try reflexivity; lia.
  - rewrite imap_cons.
    assert (Hext : imap ((fun i task => (task, Z.of_nat (k + i) =? sel)) ∘ S) l
                   = imap (fun i task => (task, Z.of_nat (S k + i) =? sel)) l).
    { apply imap_ext. intros i x _. cbn. do 2 f_equal. lia. }
    rewrite Hext, filter_cons. cbn [snd length].
    rewrite Nat.add_0_r.
    destruct (Z.eqb_spec (Z.of_nat k) sel) as [E|E].
    + rewrite decide_True by reflexivity. cbn [length]. rewrite IH.
      destruct (Z.leb_spec (Z.of_nat (S k)) sel); [lia|]. cbn [andb].
      destruct (Z.leb_spec (Z.of_nat k) sel), (Z.ltb_spec sel (Z.of_nat (k + S (length l))));
        cbn; try reflexivity; lia.
    + rewrite decide_False by discriminate. rewrite IH.
      destruct (Z.leb_spec (Z.of_nat (S k)) sel), (Z.leb_spec (Z.of_nat k) sel),
        (Z.ltb_spec sel (Z.of_nat (S k + length l))),
        (Z.ltb_spec sel (Z.of_nat (k + S (length l)))); cbn; try reflexivity; lia.
Qed.

(** X22.  The task list draws every task in exactly one row, pending tasks
    above completed ones, and draws exactly one row as selected when the
    selected index is at least 0 and below the number of tasks, and none
    otherwise. *)
Theorem one_row_selected (l : list Task) (selectedIndex : Z) :
  fst <$> rows l selectedIndex =
    filter (fun t => completed t = false) l ++ filter (fun t => completed t = true) l /\
  fst <$> rows l selectedIndex ≡ₚ l /\
  length (filter (fun r : Task * bool => snd r = true) (rows l selectedIndex)) =
    if (0 <=? selectedIndex) && (selectedIndex <? Z.of_nat (length l)) then 1%nat else 0%nat.
Proof.
  unfold rows.
  set (pending := filter (fun t => completed t = false) l).
  set (done := filter (fun t => completed t = true) l).
  assert (Hrows : imap (fun i task => (task, Z.of_nat i =? selectedIndex)) pending ++
                  imap (fun i task => (task, Z.of_nat (length pending + i) =? selectedIndex)) done
                  = imap (fun i task => (task, Z.of_nat (0 + i) =? selectedIndex))
                         (pending ++ done)).
  { rewrite imap_app. f_equal. }
  rewrite Hrows.
  assert (Hfst : fst <$> imap (fun i task => (task, Z.of_nat (0 + i) =? selectedIndex))
                              (pending ++ done) = pending ++ done).
  { generalize (pending ++ done). intros l0. generalize 0%nat.
    induction l0 as [|t l0 IH]; intros k; [reflexivity|].
    rewrite imap_cons. cbn [fmap list_fmap fst]. f_equal.
    erewrite imap_ext; [apply (IH (S k))|]. intros i x _. cbn. do 2 f_equal. lia. }
  assert (Hperm : pending ++ done ≡ₚ l) by apply filter_partition.
  split; [exact Hfst|]. split; [now rewrite Hfst|].
  rewrite selected_count. rewrite (Permutation_length Hperm). reflexivity.
Qed.

(** Two pending tasks created in the same millisecond keep their order;
    the completed one is listed apart. *)
Example pending_sorted_stable :
  let a := mkTask "3-a" "water plants" false 30 in
  let b := mkTask "1-b" "write report" false 10 in
  let c := mkTask "2-c" "call bank" true 20 in
  let d := mkTask "1-d" "read mail" false 10 in
  let w := mkWorld (mkManager [a; b; c; d] "/home/user/.pomotui-tasks.json") None in
  getPending w = [b; d; a] /\ getCompleted w = [c] /\
  rows [a; b; c; d] 3 = [(a, false); (b, false); (d, false); (c, true)].
Proof. repeat split. Qed.

End TasksFacts.

Module UpdaterFacts.
Import Updater.

Section WithParseInt.
Variable parseInt : string -> option Z.

Lemma compareFrom_cases n : forall i a b,
  (compareFrom n i a b = 1 /\
   exists j, (i <= j < i + n)%nat /\ (forall k, (i <= k < j)%nat -> part a k = part b k) /\
             part a j < part b j) \/
  (compareFrom n i a b = -1 /\
   exists j, (i <= j < i + n)%nat /\ (forall k, (i <= k < j)%nat -> part a k = part b k) /\
             part b j < part a j) \/
  (compareFrom n i a b = 0 /\
   forall k, (i <= k < i + n)%nat -> part a k = part b k).
Proof.
  induction n as [|n IH]; intros i a b; cbn [compareFrom].
  - right. right. split; [reflexivity|]. intros k Hk. lia.
  - destruct (Z.ltb_spec (part a i) (part b i)) as [H1|H1].
    + left. split; [reflexivity|]. exists i.
      split; [lia|]. split; [intros k Hk; lia | exact H1].
    + destruct (Z.ltb_spec (part b i) (part a i)) as [H2|H2].
      * right. left. split; [reflexivity|]. exists i.
        split; [lia|]. split; [intros k Hk; lia | exact H2].
      * assert (He : part a i = part b i) by lia.
        assert (Hk : forall j k, (i <= k < j)%nat ->
                       (forall k', (S i <= k' < j)%nat -> part a k' = part b k') ->
                       part a k = part b k).
        { intros j k Hr Hall. destruct (decide (k = i)) as [->|Hn]; [exact He|].
          apply Hall. lia. }
        destruct (IH (S i) a b) as [(E & j & Hj & Hall & Hlt)
                                   |[(E & j & Hj & Hall & Hlt)|(E & Hall)]].
        -- left. split; [exact E|]. exists j.
           split; [lia|]. split; [|exact Hlt]. intros k Hr. now apply (Hk j).
        -- right. left. split; [exact E|]. exists j.
           split; [lia|]. split; [|exact Hlt]. intros k Hr. now apply (Hk j).
        -- right. right. split; [exact E|]. intros k Hr.
           apply (Hk (i + S n)%nat); [lia|]. intros k' Hr'. apply Hall. lia.
Qed.

Lemma part_beyond (l : list (option Z)) k : (length l <= k)%nat -> part l k = 0.
Proof. intros H. unfold part. now rewrite lookup_ge_None_2. Qed.

(** The three results in terms of the numbers of the two versions. *)
Lemma compareVersions_cases current latest :
  let c := part (versionParts parseInt current) in
  let l := part (versionParts parseInt latest) in
  (compareVersions parseInt current latest = 1 /\
   exists j, (forall k, (k < j)%nat -> c k = l k) /\ c j < l j) \/
  (compareVersions parseInt current latest = -1 /\
   exists j, (forall k, (k < j)%nat -> c k = l k) /\ l j < c j) \/
  (compareVersions parseInt current latest = 0 /\ forall k, c k = l k).
Proof.
  intros c l. unfold compareVersions.
  set (a := versionParts parseInt current) in *.
  set (b := versionParts parseInt latest) in *.
  destruct (compareFrom_cases (Nat.max (length a) (length b)) 0 a b)
    as [(E & j & Hj & Hall & Hlt)|[(E & j & Hj & Hall & Hlt)|(E & Hall)]].
  - left. split; [exact E|]. exists j. split; [|exact Hlt]. intros k Hk. apply Hall. lia.
  - right. left. split; [exact E|]. exists j. split; [|exact Hlt].
    intros k Hk. apply Hall. lia.
  - right. right. split; [exact E|]. intros k.
    destruct (Nat.lt_ge_cases k (Nat.max (length a) (length b))) as [Hk|Hk].
    + apply Hall. lia.
    + subst c l. rewrite !part_beyond by lia. reflexivity.
Qed.

Lemma first_difference_unique (c l : nat -> Z) j1 j2 :
  (forall k, (k < j1)%nat -> c k = l k) -> c j1 < l j1 ->
  (forall k, (k < j2)%nat -> c k = l k) -> l j2 < c j2 -> False.
Proof.
  intros H1 L1 H2 L2.
  destruct (Nat.lt_trichotomy j1 j2) as [H|[H|H]].
  - specialize (H2 j1 H). lia.
  - subst. lia.
  - specialize (H1 j2 H). lia.
Qed.

(** X23.  [compareVersions] looks at the numbers of the two versions from
    the left, a missing or unreadable number counting as 0: it returns 1
    exactly when at the first position where they differ the latest version
    has the larger number, -1 exactly when the current one has, and 0 exactly
    when they agree everywhere; nothing else is ever returned. *)
Theorem first_difference_decides current latest :
  let c := part (versionParts parseInt current) in
  let l := part (versionParts parseInt latest) in
  (compareVersions parseInt current latest = 1 <->
   exists j, (forall k, (k < j)%nat -> c k = l k) /\ c j < l j) /\
  (compareVersions parseInt current latest = -1 <->
   exists j, (forall k, (k < j)%nat -> c k = l k) /\ l j < c j) /\
  (compareVersions parseInt current latest = 0 <-> forall k, c k = l k) /\
  (compareVersions parseInt current latest = 1 \/
   compareVersions parseInt current latest = -1 \/
   compareVersions parseInt current latest = 0).
Proof.
  cbv zeta. pose proof (compareVersions_cases current latest) as H. cbv zeta in H.
  set (c := part (versionParts parseInt current)) in *.
  set (l := part (versionParts parseInt latest)) in *.
  destruct H as [(E & j & Hall & Hlt)|[(E & j & Hall & Hlt)|(E & Hall)]]; rewrite E.
  - split; [|split; [|split]]; auto.
    + split; [intros _; eauto | reflexivity].
    + split; [discriminate|]. intros (j' & Hall' & Hlt').
      exfalso. eapply (first_difference_unique c l j j'); eauto.
    + split; [discriminate|]. intros Heq. specialize (Heq j). lia.
  - split; [|split; [|split]]; auto.
    + split; [discriminate|]. intros (j' & Hall' & Hlt').
      exfalso. eapply (first_difference_unique c l j' j); eauto.
    + split; [intros _; eauto | reflexivity].
    + split; [discriminate|]. intros Heq. specialize (Heq j). lia.
  - split; [|split; [|split]]; auto.
    + split; [discriminate|]. intros (j' & _ & Hlt'). specialize (Hall j'). lia.
    + split; [discriminate|]. intros (j' & _ & Hlt'). specialize (Hall j'). lia.
    + split; [intros _; exact Hall | reflexivity].
Qed.

Lemma splitDot_cons ch s :
  splitDot (String ch s) =
    if Ascii.eqb ch "."
    then EmptyString :: splitDot s
    else match splitDot s with
         | p :: ps => String ch p :: ps
         | [] => [String ch EmptyString]
         end.
Proof. reflexivity. Qed.

Lemma splitDot_nonempty s : splitDot s <> [].
Proof.
  destruct s as [|ch s]; [discriminate|]. rewrite splitDot_cons.
  destruct (Ascii.eqb ch "."); [discriminate|]. destruct (splitDot s); discriminate.
Qed.

Lemma splitDot_app_dot s t : splitDot (s +:+ "." +:+ t) = splitDot s ++ splitDot t.
Proof.
  induction s as [|ch s IH]; [reflexivity|].
  change (String ch s +:+ "." +:+ t)%string with (String ch (s +:+ "." +:+ t)).
  rewrite !splitDot_cons, IH.
  destruct (Ascii.eqb ch "."); [reflexivity|].
  pose proof (splitDot_nonempty s) as Hn.
  destruct (splitDot s) as [|p ps]; [now destruct Hn | reflexivity].
Qed.

Lemma stripV_app_dot s t : stripV (s +:+ "." +:+ t) = (stripV s +:+ "." +:+ t)%string.
Proof.
  destruct s as [|ch s]; [reflexivity|]. unfold stripV.
  change (String ch s +:+ "." +:+ t)%string with (String ch (s +:+ "." +:+ t)).
  cbv beta iota. destruct (Ascii.eqb ch "v"); reflexivity.
Qed.

Lemma part_app_zero parts k : part (parts ++ [Some 0]) k = part parts k.
Proof.
  unfold part. destruct (Nat.lt_ge_cases k (length parts)) as [H|H].
  - now rewrite lookup_app_l.
  - rewrite lookup_app_r by exact H. rewrite (lookup_ge_None_2 parts) by exact H.
    destruct (k - length parts)%nat as [|m]; cbn; [reflexivity|]. now destruct m.
Qed.

Lemma same_parts_same_result a a' b :
  (forall k, part (versionParts parseInt a) k = part (versionParts parseInt a') k) ->
  compareVersions parseInt a b = compareVersions parseInt a' b.
Proof.
  intros H.
  destruct (first_difference_decides a b) as (A1 & A2 & A3 & A4).
  destruct (first_difference_decides a' b) as (B1 & B2 & B3 & B4).
  cbn zeta in *.
  destruct A4 as [E|[E|E]]; rewrite E; symmetry.
  - apply B1. apply A1 in E. destruct E as (j & Hall & Hlt).
    exists j. split; [|now rewrite <- H]. intros k Hk. rewrite <- H. now apply Hall.
  - apply B2. apply A2 in E. destruct E as (j & Hall & Hlt).
    exists j. split; [|now rewrite <- H]. intros k Hk. rewrite <- H. now apply Hall.
  - apply B3. intros k. rewrite <- H. revert k. now apply A3.
Qed.

(** X24.  [compareVersions] of a version with itself is 0; swapping the two
    versions negates the result; a leading "v" on the current version makes
    no difference; and, [parseInt] reading "0" as 0, neither does a trailing
    ".0". *)
Theorem compareVersions_symmetries current latest :
  parseInt "0" = Some 0 ->
  compareVersions parseInt current current = 0 /\
  compareVersions parseInt latest current = - compareVersions parseInt current latest /\
  compareVersions parseInt ("v" +:+ stripV current) latest =
    compareVersions parseInt current latest /\
  compareVersions parseInt (current +:+ ".0") latest =
    compareVersions parseInt current latest.
Proof.
  intros H0. split; [|split; [|split]].
  - apply (first_difference_decides current current). reflexivity.
  - destruct (first_difference_decides current latest) as (A1 & A2 & A3 & A4).
    destruct (first_difference_decides latest current) as (B1 & B2 & B3 & B4).
    cbn zeta in *.
    destruct A4 as [E|[E|E]]; rewrite E.
    + apply B2. apply A1 in E. destruct E as (j & Hall & Hlt).
      exists j. split; [|exact Hlt]. intros k Hk. symmetry. now apply Hall.
    + apply B1. apply A2 in E. destruct E as (j & Hall & Hlt).
      exists j. split; [|exact Hlt]. intros k Hk. symmetry. now apply Hall.
    + apply B3. intros k. symmetry. revert k. now apply A3.
  - apply same_parts_same_result. intros k. reflexivity.
  - apply same_parts_same_result. intros k. unfold versionParts.
    change (current +:+ ".0")%string with (current +:+ "." +:+ "0")%string.
    rewrite stripV_app_dot, splitDot_app_dot, map_app. cbn [splitDot map].
    change (Ascii.eqb "0" ".") with false. cbn [map]. rewrite H0.
    apply part_app_zero.
Qed.

End WithParseInt.

Example compareVersions_newer : compareVersions parseDigits "v1.9.3" "v1.10.0" = 1.
Proof. reflexivity. Qed.

Example compareVersions_short : compareVersions parseDigits "2.0" "v2" = 0.
Proof. reflexivity. Qed.

Lemma compareVersions_symmetries_witness :
  parseDigits "0" = Some 0 /\
  compareVersions parseDigits "v1.10.0" "v1.9.3" = -1.
Proof.
  split; [reflexivity|].
  rewrite (proj1 (proj2 (compareVersions_symmetries parseDigits "v1.9.3" "v1.10.0" eq_refl))).
  reflexivity.
Defined.

End UpdaterFacts.

Module CLIFacts.
Import CLI.

Section WithParseInt.
Variable parseInt : string -> option Z.

Lemma numeric_ok value default message n :
  numeric parseInt value default message = inr n ->
  1 <= default ->
  1 <= n /\
  ((value = None \/ value = Some EmptyString) -> n = default) /\
  (forall text, value = Some text -> text <> EmptyString -> parseInt text = Some n).
Proof.
  unfold numeric. intros H Hd. destruct value as [text|].
  - destruct (decide (text = EmptyString)) as [->|Hne].
    + inversion H; subst. repeat split; auto. intros t Ht Hn. inversion Ht; subst.
      now destruct Hn.
    + destruct (parseInt text) as [m|] eqn:E; [|discriminate].
      destruct (Z.ltb_spec m 1); [discriminate|]. inversion H; subst.
      repeat split; auto.
      * intros [Hv|Hv]; inversion Hv. now destruct Hne.
      * intros t Ht _. inversion Ht; subst. exact E.
  - inversion H; subst. repeat split; auto. discriminate.
Qed.

(** X25.  Every configuration [parseConfig] returns is valid: all three
    durations and the cycle length are at least 1.  An option that is
    absent or empty leaves the default (25, 5, 15 and 4; radio), any other
    is the number [parseInt] read from it; the history file and the token
    are passed on as given. *)
Theorem parseConfig_returns_valid parsed thrown app :
  parseConfig parseInt parsed thrown = Config app ->
  valid_config (pomodoro app) /\
  (exists values,
     parsed = Ok values /\ opt_help values = false /\
     historyFile app = opt_data values /\
     spotifyToken app = opt_spotify_token values /\
     numeric parseInt (opt_work values) 25 "Error: Work duration must be a positive number"
       = inr (workDuration (pomodoro app)) /\
     numeric parseInt (opt_short values) 5
             "Error: Short break duration must be a positive number"
       = inr (shortBreakDuration (pomodoro app)) /\
     numeric parseInt (opt_long values) 15
             "Error: Long break duration must be a positive number"
       = inr (longBreakDuration (pomodoro app)) /\
     numeric parseInt (opt_cycles values) 4 "Error: Cycles must be a positive number"
       = inr (pomodorosBeforeLongBreak (pomodoro app)) /\
     ((opt_work values = None \/ opt_work values = Some EmptyString) ->
      workDuration (pomodoro app) = 25) /\
     ((opt_music values = None \/ opt_music values = Some EmptyString) ->
      musicMode app = Manager.radio)).
Proof.
  unfold parseConfig. destruct parsed as [values|]; [|discriminate].
  destruct (opt_help values) eqn:Eh; [discriminate|].
  cbn [workDuration shortBreakDuration longBreakDuration pomodorosBeforeLongBreak
       DEFAULT_CONFIG].
  destruct (numeric parseInt (opt_work values) 25 _) as [?|w] eqn:Ew; [discriminate|].
  destruct (numeric parseInt (opt_short values) 5 _) as [?|s] eqn:Es; [discriminate|].
  destruct (numeric parseInt (opt_long values) 15 _) as [?|l] eqn:El; [discriminate|].
  destruct (numeric parseInt (opt_cycles values) 4 _) as [?|c] eqn:Ec; [discriminate|].
  destruct (parseMusic (opt_music values)) as [?|m] eqn:Em; [discriminate|].
  intros H. inversion H; subst app. cbn.
  destruct (numeric_ok _ _ _ _ Ew ltac:(lia)) as (W1 & W2 & _).
  destruct (numeric_ok _ _ _ _ Es ltac:(lia)) as (S1 & _).
  destruct (numeric_ok _ _ _ _ El ltac:(lia)) as (L1 & _).
  destruct (numeric_ok _ _ _ _ Ec ltac:(lia)) as (C1 & _).
  split; [unfold valid_config; cbn; lia|].
  exists values. repeat split; auto.
  intros Hm. unfold parseMusic in Em.
  destruct Hm as [Hm|Hm]; rewrite Hm in Em; cbn [parseMusic] in Em.
  - congruence.
  - rewrite decide_True in Em by reflexivity. congruence.
Qed.

(** X26.  Unless [--help] is given (then the help is shown and nothing
    else is looked at), [parseConfig] gives up with an error line, instead of
    returning a configuration, as soon as a numeric option that is given and
    not empty does not parse or parses to less than 1; this holds for zero
    and negative numbers alike. *)
Theorem parseConfig_rejects_bad_numbers values thrown text :
  opt_help values = false ->
  text <> EmptyString ->
  (parseInt text = None \/ exists n, parseInt text = Some n /\ n < 1) ->
  (opt_work values = Some text \/ opt_short values = Some text \/
   opt_long values = Some text \/ opt_cycles values = Some text) ->
  exists lines, parseConfig parseInt (Ok values) thrown = Exit lines.
Proof.
  intros Hh Hne Hbad Hopt.
  assert (Hnum : forall default message,
            numeric parseInt (Some text) default message = inl message).
  { intros default message. unfold numeric. rewrite decide_False by exact Hne.
    destruct Hbad as [->|(n & -> & Hn)]; [reflexivity|].
    destruct (Z.ltb_spec n 1); [reflexivity | lia]. }
  unfold parseConfig. rewrite Hh.
  destruct (numeric parseInt (opt_work values) _ _) as [?|w] eqn:Ew; [eauto|].
  destruct (numeric parseInt (opt_short values) _ _) as [?|s] eqn:Es; [eauto|].
  destruct (numeric parseInt (opt_long values) _ _) as [?|l] eqn:El; [eauto|].
  destruct (numeric parseInt (opt_cycles values) _ _) as [?|c] eqn:Ec; [eauto|].
  exfalso. destruct Hopt as [H|[H|[H|H]]]; rewrite H in *;
    rewrite Hnum in *; discriminate.
Qed.

End WithParseInt.

Lemma parseConfig_returns_valid_witness :
  parseConfig Updater.parseDigits
    (Ok (mkValues (Some "50"%string) None (Some EmptyString) (Some "2"%string) None
                  (Some "off"%string) None false)) EmptyString
  = Config (mkAppConfig (mkConfig 50 5 15 2) None Manager.off None) /\
  valid_config (mkConfig 50 5 15 2).
Proof.
  assert (H : parseConfig Updater.parseDigits
                (Ok (mkValues (Some "50"%string) None (Some EmptyString) (Some "2"%string)
                              None (Some "off"%string) None false)) EmptyString
              = Config (mkAppConfig (mkConfig 50 5 15 2) None Manager.off None))
    by reflexivity.
  split; [exact H|].
  exact (proj1 (parseConfig_returns_valid Updater.parseDigits _ _ _ H)).
Defined.

Lemma parseConfig_rejects_bad_numbers_witness :
  exists lines,
    parseConfig Updater.parseDigits
      (Ok (mkValues None (Some "0"%string) None None None None None false)) EmptyString
    = Exit lines.
Proof.
  apply (parseConfig_rejects_bad_numbers Updater.parseDigits
           (mkValues None (Some "0"%string) None None None None None false)
           EmptyString "0"%string eq_refl).
  - discriminate.
  - right. exists 0. split; [reflexivity | lia].
  - right. left. reflexivity.
Defined.

End CLIFacts.

Module ManagerMore.
Import Manager.

Lemma call_command env op w :
  Radio.playerCommand (Radio.player (snd (Radio.call env op w))) =
  Radio.playerCommand (Radio.player w).
Proof.
  RadioFacts.world w.
  destruct op; RadioMore.radio;
    try (destruct ((0 <=? index) && (index <? Radio.totalStations)); RadioFacts.monad);
    destruct proc as [hp|], playing, cmd as [c|]; RadioFacts.monad; RadioMore.branches;
    reflexivity.
Qed.

Lemma run_command env ops : forall w,
  Radio.playerCommand (Radio.player (Radio.run env ops w)) =
  Radio.playerCommand (Radio.player w).
Proof.
  induction ops as [|op ops IH]; intros w; [reflexivity|].
  cbn [Radio.run fold_left]. unfold Radio.run in IH. rewrite IH. apply call_command.
Qed.

Lemma manager_command env mode0 token timer ops :
  Radio.playerCommand (Radio.player (radioWorld (run env ops (construct env mode0 token timer))))
  = Radio.detectPlayer env Radio.players.
Proof.
  assert (H : forall m,
            Radio.playerCommand (Radio.player (radioWorld (run env ops m))) =
            Radio.playerCommand (Radio.player (radioWorld m))).
  { induction ops as [|op ops IH]; intros m; [reflexivity|].
    cbn [run fold_left]. unfold run in IH. rewrite IH.
    destruct (ManagerFacts.call_radioWorld env op m) as (rops & Hw & _).
    rewrite Hw. apply run_command. }
  rewrite H. reflexivity.
Qed.

(** X27.  After any operations of a manager: at most one handle of a
    player process is live (spawned and not yet sent a kill) and there never
    were two at once; [hasPlayer()] is false exactly when
    the mode is radio and no player program was found at construction, and
    then [play()] returns false and changes nothing; in radio mode with a
    player found and nothing playing, a [play()] whose spawn does not throw
    returns true and [isPlaying()] is true afterwards. *)
Theorem manager_play_and_hasPlayer env mode0 token timer ops :
  let m := run env ops (construct env mode0 token timer) in
  (size (Radio.liveHandles (Radio.os (radioWorld m))) <= 1)%nat /\
  (Radio.peak (Radio.os (radioWorld m)) <= 1)%nat /\
  (hasPlayer m = false <->
   mode0 = radio /\ Radio.detectPlayer env Radio.players = None) /\
  (hasPlayer m = false -> play env m = (Ok false, m)) /\
  (mode0 = radio -> hasPlayer m = true ->
   isPlaying m = Ok false ->
   Radio.spawn_throws env (Radio.requests (Radio.os (radioWorld m))) = false ->
   exists m', play env m = (Ok true, m') /\ isPlaying m' = Ok true).
Proof.
  intros m.
  destruct (ManagerFacts.run_reachable env mode0 token timer ops) as (Hmode & I & R & _).
  pose proof (manager_command env mode0 token timer ops) as Hcmd.
  fold m in Hmode, I, R, Hcmd. clearbody m.
  set (found := Radio.detectPlayer env Radio.players) in *. clearbody found.
  destruct m as [md w d reg log]. cbn [mode radioWorld] in Hmode, I, R, Hcmd. subst md.
  split; [now apply RadioFacts.inv_size|]. split; [apply (Radio.inv_peak w I)|].
  unfold hasPlayer, play, isPlaying, RadioStatus.getAvailablePlayer.
  cbn [mode radioWorld display].
  destruct R as [Hi Hc]. destruct (RadioMore.stationAt_in_range _ Hi) as (st & Hst & _).
  split; [|split].
  - rewrite Hcmd.
    destruct mode0; destruct found;
      (split; [try discriminate; auto | try (intros [? ?]; congruence); auto]).
  - destruct mode0; try discriminate.
    destruct (Radio.playerCommand (Radio.player w)) eqn:E; [discriminate|].
    intros _. unfold onRadio.
    RadioFacts.world w. cbn in E. subst cmd. reflexivity.
  - intros -> Hp Hs Hsp. unfold onRadio, RadioStatus.getStatus in *. rewrite Hst in Hs.
    inversion Hs as [Hplaying]. clear Hs.
    destruct (Radio.inv_flag w I Hplaying).
    RadioFacts.world w. cbn in *. subst playing.
    destruct cmd as [c|]; [|discriminate].
    rewrite Hst. RadioFacts.monad. rewrite Hsp. eexists. split; [reflexivity|].
    cbn. rewrite Hst. reflexivity.
Qed.

(** A machine with mpv on which nothing fails: after a [nextStation()] and a
    [toggle()] pair the radio is idle, and [play()] starts it. *)
Lemma manager_play_and_hasPlayer_witness :
  radio = radio /\
  hasPlayer (run (Radio.mkEnv (fun _ => Ok 0) (fun _ => false) (fun _ => false))
                 [OpNextStation; OpToggle; OpToggle]
                 (construct (Radio.mkEnv (fun _ => Ok 0) (fun _ => false) (fun _ => false))
                            radio None 0)) = true /\
  exists m',
    play (Radio.mkEnv (fun _ => Ok 0) (fun _ => false) (fun _ => false))
         (run (Radio.mkEnv (fun _ => Ok 0) (fun _ => false) (fun _ => false))
              [OpNextStation; OpToggle; OpToggle]
              (construct (Radio.mkEnv (fun _ => Ok 0) (fun _ => false) (fun _ => false))
                         radio None 0))
      = (Ok true, m') /\
    isPlaying m' = Ok true.
Proof.
  split; [reflexivity|]. split; [reflexivity|].
  pose proof (manager_play_and_hasPlayer
                (Radio.mkEnv (fun _ => Ok 0) (fun _ => false) (fun _ => false))
                radio None 0 [OpNextStation; OpToggle; OpToggle]) as H.
  cbv zeta in H. destruct H as (_ & _ & _ & _ & H).
  apply H; reflexivity.
Defined.

End ManagerMore.
